(** * Rolling window (core/collection/rollingwindow.go)

    A shallow embedding of go-zero's [RollingWindow]: a ring of [size]
    buckets, a cursor [offset], the start [lastTime] of the bucket under the
    cursor and the bucket width [interval].

    Conventions of the embedding.
    - Go's [int], [int64] and [time.Duration] are 64-bit two's complement
      integers: they are values of [Z], and every addition, subtraction and
      division is followed by [wrap64].
    - A runtime panic (integer division by zero, index out of range, a
      slice length [make] refuses, the explicit [panic] of the constructor)
      is the [Panic] case of [result].
    - [float64] is Rocq's primitive binary64 [float].
    - The slice [[]*Bucket] is a [list Bucket]; a store through one of its
      pointers is a list update at the pointer's index.
    - The clock ([timex.Now], [timex.Since]) is outside the file: every
      function takes, in the order the code reads them, the clock readings
      it uses. *)

From Stdlib Require Import ZArith Lia Bool String PrimFloat.
From stdpp Require Import base list.

Local Open Scope Z_scope.

(** ** 64-bit integers *)

Definition wrap64 (z : Z) : Z := (z + 2 ^ 63) mod 2 ^ 64 - 2 ^ 63.

Definition int64_range (z : Z) : Prop := - 2 ^ 63 <= z < 2 ^ 63.

Definition add64 (a b : Z) : Z := wrap64 (a + b).
Definition sub64 (a b : Z) : Z := wrap64 (a - b).

(** ** Panics *)

Inductive panic : Type :=
  | DivideByZero
  | IndexOutOfRange
  | MakesliceLenOutOfRange
  | Message (s : string).

Inductive result (A : Type) : Type :=
  | Ok (a : A)
  | Panic (p : panic).

Arguments Ok {A} a.
Arguments Panic {A} p.

Definition bind {A B : Type} (m : result A) (k : A -> result B) : result B :=
  match m with
  | Ok a => k a
  | Panic p => Panic p
  end.

Notation "x <- m ;; k" := (bind m (fun x => k))
  (at level 100, m at next level, right associativity).

(** Go's [a / b] and [a % b] on 64-bit integers: truncation toward zero, the
    remainder has the sign of the dividend, a zero divisor panics. *)
Definition div64 (a b : Z) : result Z :=
  if b =? 0 then Panic DivideByZero else Ok (wrap64 (Z.quot a b)).

Definition rem64 (a b : Z) : result Z :=
  if b =? 0 then Panic DivideByZero else Ok (Z.rem a b).

(** [s[k]] on a slice. *)
Definition index {A : Type} (s : list A) (k : Z) : result A :=
  if (0 <=? k) && (k <? Z.of_nat (length s)) then
    match s !! Z.to_nat k with
    | Some x => Ok x
    | None => Panic IndexOutOfRange
    end
  else Panic IndexOutOfRange.

(** ** Bucket *)

Record Bucket : Type := mkBucket { Sum : float; Count : Z }.

Module Bucket.

(** [new(Bucket)]: the zero value. *)
Definition new : Bucket := mkBucket 0%float 0.

Definition add (v : float) (b : Bucket) : Bucket :=
  mkBucket (Sum b + v)%float (add64 (Count b) 1).

Definition reset (b : Bucket) : Bucket := mkBucket 0%float 0.

End Bucket.

(** ** window *)

Module window.

Record t : Type := mk { buckets : list Bucket; size : Z }.

(** [w.buckets[k].m()] for a method [m] that updates its receiver. *)
Definition update (k : Z) (m : Bucket -> Bucket) (w : t) : result t :=
  b <- index (buckets w) k ;;
  Ok (mk (<[Z.to_nat k := m b]> (buckets w)) (size w)).

Definition add (offset : Z) (v : float) (w : t) : result t :=
  k <- rem64 offset (size w) ;;
  update k (Bucket.add v) w.

Definition resetBucket (offset : Z) (w : t) : result t :=
  k <- rem64 offset (size w) ;;
  update k Bucket.reset w.

(** The visitor receives a pointer: it may store through it, and it
    threads its own state [A] (the variables its closure captures). *)
Fixpoint reduce_loop {A : Type} (n : nat) (i : Z) (start : Z)
    (fn : Bucket -> A -> Bucket * A) (w : t) (a : A) : result (t * A) :=
  match n with
  | O => Ok (w, a)
  | S n' =>
      k <- rem64 (add64 start i) (size w) ;;
      b <- index (buckets w) k ;;
      let '(b', a') := fn b a in
      reduce_loop n' (add64 i 1) start fn
        (mk (<[Z.to_nat k := b']> (buckets w)) (size w)) a'
  end.

(** [for i := 0; i < count; i++]: [Z.to_nat count] iterations. *)
Definition reduce {A : Type} (start count : Z)
    (fn : Bucket -> A -> Bucket * A) (w : t) (a : A) : result (t * A) :=
  reduce_loop (Z.to_nat count) 0 start fn w a.

End window.

(** The largest allocation the Go runtime accepts, on the 64-bit platforms
    with 48-bit heap addresses (linux/amd64 among them), and the size of a
    pointer there. *)
Definition maxAlloc : Z := 2 ^ 48.
Definition ptrSize : Z := 8.

(** The longest [[]*Bucket] that [make] accepts. *)
Definition max_slice_len : Z := maxAlloc / ptrSize.

(** [make([]*Bucket, size)] followed by the loop that stores a fresh
    [Bucket] in each of the [size] slots.  [make] panics with
    "makeslice: len out of range" when [size] is negative or when [size]
    pointers take more than [maxAlloc] bytes.  Running out of memory below
    that limit is a fatal error of the runtime that depends on the machine;
    it is not modelled. *)
Definition newWindow (size : Z) : result window.t :=
  if (size <? 0) || (maxAlloc <? ptrSize * size)
  then Panic MakesliceLenOutOfRange
  else Ok (window.mk (replicate (Z.to_nat size) Bucket.new) size).

(** ** RollingWindow *)

Record RollingWindow : Type := mkRollingWindow {
  size : Z;
  win : window.t;
  interval : Z;
  offset : Z;
  ignoreCurrent : bool;
  lastTime : Z
}.

Definition set_win (w : window.t) (rw : RollingWindow) : RollingWindow :=
  mkRollingWindow (size rw) w (interval rw) (offset rw) (ignoreCurrent rw)
    (lastTime rw).

Definition set_offset (o : Z) (rw : RollingWindow) : RollingWindow :=
  mkRollingWindow (size rw) (win rw) (interval rw) o (ignoreCurrent rw)
    (lastTime rw).

Definition set_lastTime (t : Z) (rw : RollingWindow) : RollingWindow :=
  mkRollingWindow (size rw) (win rw) (interval rw) (offset rw)
    (ignoreCurrent rw) t.

Definition set_ignoreCurrent (b : bool) (rw : RollingWindow) : RollingWindow :=
  mkRollingWindow (size rw) (win rw) (interval rw) (offset rw) b (lastTime rw).

Definition RollingWindowOption : Type := RollingWindow -> RollingWindow.

Definition IgnoreCurrentBucket : RollingWindowOption :=
  fun w => set_ignoreCurrent true w.

(** Modelled from the spec: package [timex] ([Now], [Since]) is not part of
    the source at hand.  Section 4.3 gives [elapsed = now - lastTime]:
    [timex.Since(d)] is the clock reading [now] minus [d], a subtraction of
    two 64-bit durations. *)
Definition Since (now d : Z) : Z := sub64 now d.

(** [now] is the reading of [timex.Now()] that initialises [lastTime]. *)
Definition NewRollingWindow (size interval : Z) (now : Z)
    (opts : list RollingWindowOption) : result RollingWindow :=
  if size <? 1 then Panic (Message "size must be greater than 0")
  else
    w <- newWindow size ;;
    Ok (fold_left (fun rw opt => opt rw) opts
          (mkRollingWindow size w interval 0 false now)).

Definition span (now : Z) (rw : RollingWindow) : result Z :=
  offset <- div64 (Since now (lastTime rw)) (interval rw) ;;
  if (0 <=? offset) && (offset <? size rw) then Ok offset
  else Ok (size rw).

(** [for i := 0; i < span; i++ { rw.win.resetBucket((offset + i + 1) % rw.size) }] *)
Fixpoint reset_loop (n : nat) (i : Z) (offset : Z) (rw : RollingWindow)
    : result RollingWindow :=
  match n with
  | O => Ok rw
  | S n' =>
      k <- rem64 (add64 (add64 offset i) 1) (size rw) ;;
      w <- window.resetBucket k (win rw) ;;
      reset_loop n' (add64 i 1) offset (set_win w rw)
  end.

(** [t_span] is the clock reading taken inside [span], [t_now] the one taken
    by [timex.Now()] after the reset loop. *)
Definition updateOffset (t_span t_now : Z) (rw : RollingWindow)
    : result RollingWindow :=
  sp <- span t_span rw ;;
  if sp <=? 0 then Ok rw
  else
    let offset0 := offset rw in
    rw1 <- reset_loop (Z.to_nat sp) 0 offset0 rw ;;
    o <- rem64 (add64 offset0 sp) (size rw1) ;;
    let rw2 := set_offset o rw1 in
    let now := t_now in
    r <- rem64 (sub64 now (lastTime rw2)) (interval rw2) ;;
    Ok (set_lastTime (sub64 now r) rw2).

Definition Add (t_span t_now : Z) (v : float) (rw : RollingWindow)
    : result RollingWindow :=
  rw1 <- updateOffset t_span t_now rw ;;
  w <- window.add (offset rw1) v (win rw1) ;;
  Ok (set_win w rw1).

Definition Reduce {A : Type} (now : Z) (fn : Bucket -> A -> Bucket * A)
    (rw : RollingWindow) (a : A) : result (RollingWindow * A) :=
  sp <- span now rw ;;
  let diff :=
    if (sp =? 0) && ignoreCurrent rw then sub64 (size rw) 1
    else sub64 (size rw) sp in
  if 0 <? diff then
    offset <- rem64 (add64 (add64 (offset rw) sp) 1) (size rw) ;;
    r <- window.reduce offset diff fn (win rw) a ;;
    let '(w, a') := r in Ok (set_win w rw, a')
  else Ok (rw, a).

(** ** Scenarios *)

Definition Millisecond : Z := 1000000.

(** A visitor that totals what it sees (as the callers of [Reduce] do) and
    counts its invocations. *)
Definition totals : Type := float * Z * Z.

Definition tally (b : Bucket) (acc : totals) : Bucket * totals :=
  let '(s, c, n) := acc in
  (b, ((s + Sum b)%float, add64 c (Count b), n + 1)).

(** A visitor that records the buckets in the order it is handed them. *)
Definition collect (b : Bucket) (seen : list Bucket) : Bucket * list Bucket :=
  (b, seen ++ [b]).

Definition scenarioA (opts : list RollingWindowOption) : result RollingWindow :=
  rw <- NewRollingWindow 3 (10 * Millisecond) 0 opts ;;
  Add 0 0 1%float rw.

Definition scenarioB : result RollingWindow :=
  rw <- scenarioA [] ;;
  Add (10 * Millisecond) (10 * Millisecond) 2%float rw.


(** ** Well-formed controllers

    What the constructor establishes and every operation keeps.  The upper
    bound on [size] keeps [offset + span + 1] inside the 64-bit range; a
    slice of [2 ^ 62] pointers cannot be allocated. *)

Record wf (rw : RollingWindow) : Prop := mk_wf {
  wf_size : 1 <= size rw < 2 ^ 62;
  wf_wsize : window.size (win rw) = size rw;
  wf_len : Z.of_nat (length (window.buckets (win rw))) = size rw;
  wf_offset : 0 <= offset rw < size rw
}.

(** An option that only configures: it leaves the ring, the cursor and the
    time fields alone. *)
Definition config_only (opt : RollingWindowOption) : Prop :=
  forall rw, opt rw = set_ignoreCurrent (ignoreCurrent (opt rw)) rw.

(** ** Histories of calls *)

Inductive call : Type :=
  | CallAdd (t_span t_now : Z) (v : float)
  | CallReduce (now : Z) (fn : Bucket -> Bucket).

(** A visitor that only stores through the pointer it is given. *)
Definition store_only (fn : Bucket -> Bucket) (b : Bucket) (u : unit)
    : Bucket * unit := (fn b, u).

Definition do_call (c : call) (rw : RollingWindow) : result RollingWindow :=
  match c with
  | CallAdd t_span t_now v => Add t_span t_now v rw
  | CallReduce now fn =>
      r <- Reduce now (store_only fn) rw tt ;; Ok (fst r)
  end.

Fixpoint run (cs : list call) (rw : RollingWindow) : result RollingWindow :=
  match cs with
  | [] => Ok rw
  | c :: cs' => rw' <- do_call c rw ;; run cs' rw'
  end.

(** The number of times [Reduce] invokes its visitor. *)
Definition count_visit (b : Bucket) (n : Z) : Bucket * Z := (b, n + 1).

Definition visited (now : Z) (rw : RollingWindow) : result Z :=
  r <- Reduce now count_visit rw 0 ;; Ok (snd r).

(** ** The specification's reading of the operations *)

(** Section 4.3 of the specification, with the floor it names. *)
Definition span_floor_spec (now : Z) (rw : RollingWindow) : Z :=
  let elapsed := now - lastTime rw in
  let rawSpan := elapsed / interval rw in
  if (0 <=? rawSpan) && (rawSpan <? size rw) then rawSpan else size rw.

(** The same with Go's quotient, truncated toward zero. *)
Definition span_quot_spec (now : Z) (rw : RollingWindow) : Z :=
  let elapsed := sub64 now (lastTime rw) in
  let rawSpan := Z.quot elapsed (interval rw) in
  if (0 <=? rawSpan) && (rawSpan <? size rw) then rawSpan else size rw.

(** Section 4.6: the number of valid buckets and the ring slots they sit in. *)
Definition validCount (sp : Z) (rw : RollingWindow) : Z :=
  if (sp =? 0) && ignoreCurrent rw then size rw - 1 else size rw - sp.

Definition ring_slots_from (i0 n : nat) (start size : Z) : list Z :=
  (fun i : nat => (start + Z.of_nat i) mod size) <$> seq i0 n.

Definition ring_slots (start count size : Z) : list Z :=
  ring_slots_from 0 (Z.to_nat count) start size.

(** One visit per entry of [slots], in list order, each to the bucket stored
    at that slot. *)
Fixpoint visit_slots {A : Type} (fn : Bucket -> A -> Bucket * A)
    (slots : list Z) (bs : list Bucket) (a : A) : list Bucket * A :=
  match slots with
  | [] => (bs, a)
  | k :: slots' =>
      match bs !! Z.to_nat k with
      | Some b =>
          let '(b', a') := fn b a in
          visit_slots fn slots' (<[Z.to_nat k := b']> bs) a'
      | None => visit_slots fn slots' bs a
      end
  end.

(** Some call of the history found a bucket stale: its span was positive. *)
Fixpoint ever_stale (cs : list call) (rw : RollingWindow) : bool :=
  match cs with
  | [] => false
  | c :: cs' =>
      let now := match c with CallAdd t _ _ => t | CallReduce t _ => t end in
      match span now rw, do_call c rw with
      | Ok sp, Ok rw' => (0 <? sp) || ever_stale cs' rw'
      | _, _ => false
      end
  end.

(** ** Auxiliary definitions of the proofs *)

(** The visitor of the reset loop. *)
Definition reset_visit (b : Bucket) (u : unit) : Bucket * unit :=
  (Bucket.reset b, u).

(** The controller [updateOffset] leaves behind when the span is [sp]. *)
Definition advanced (sp t_now : Z) (rw : RollingWindow) : RollingWindow :=
  set_lastTime
    (sub64 t_now (Z.rem (sub64 t_now (lastTime rw)) (interval rw)))
    (set_offset ((offset rw + sp) mod size rw)
       (set_win
          (window.mk
             (fst (visit_slots reset_visit
                     (ring_slots_from 0 (Z.to_nat sp) (offset rw + 1) (size rw))
                     (window.buckets (win rw)) tt))
             (size rw)) rw)).

(** The readings [timex.Now()] hands to [updateOffset] are non-negative
    durations. *)
Definition clock_nonneg (cs : list call) : Prop :=
  Forall (fun c => match c with
                   | CallAdd _ t_now _ => 0 <= t_now < 2 ^ 63
                   | CallReduce _ _ => True
                   end) cs.

(** ** Concrete controllers and the claims as worded *)

(** A window built at clock reading 10 with three buckets of width 10. *)
Definition regressed_window : RollingWindow :=
  mkRollingWindow 3 (window.mk (replicate 3%nat Bucket.new) 3) 10 0 false 10.

(** A window built at clock reading 100 with three buckets of width 10. *)
Definition late_window : RollingWindow :=
  mkRollingWindow 3 (window.mk (replicate 3%nat Bucket.new) 3) 10 0 false 100.

(** The ring after [scenarioA] and after [scenarioB]. *)
Definition after_A (ignore : bool) : RollingWindow :=
  mkRollingWindow 3
    (window.mk [mkBucket 1 1; Bucket.new; Bucket.new] 3)
    (10 * Millisecond) 0 ignore 0.

Definition after_B : RollingWindow :=
  mkRollingWindow 3
    (window.mk [mkBucket 1 1; mkBucket 2 1; Bucket.new] 3)
    (10 * Millisecond) 1 false (10 * Millisecond).

(** The bucket count invariant as the specification words it: the count is
    in [0, size], and it is [size] only when no call of the history found a
    bucket stale and [ignoreCurrent] is false. *)
Definition bucket_count_claim (cs : list call) (rw0 : RollingWindow)
    (now : Z) : Prop :=
  forall rw n,
    run cs rw0 = Ok rw -> visited now rw = Ok n ->
    0 <= n <= size rw /\
    (n = size rw -> ever_stale cs rw0 = false /\ ignoreCurrent rw = false).

Definition fresh_window : RollingWindow :=
  mkRollingWindow 3 (window.mk (replicate 3%nat Bucket.new) 3)
    (10 * Millisecond) 0 false 0.

Definition scenarioB_calls : list call :=
  [CallAdd 0 0 1%float;
   CallAdd (10 * Millisecond) (10 * Millisecond) 2%float].

(** ** Definitions for the further properties *)

(** The bucket after the values [vs] were added to it, first to last. *)
Definition add_all (vs : list float) (b : Bucket) : Bucket :=
  fold_left (fun b v => Bucket.add v b) vs b.

(** An [Add] whose span, measured against [rw], is 0. *)
Definition same_slice_add (rw : RollingWindow) (c : call) : Prop :=
  match c with
  | CallAdd t_span _ _ => span t_span rw = Ok 0
  | CallReduce _ _ => False
  end.

Definition added_values (cs : list call) : list float :=
  flat_map (fun c => match c with
                     | CallAdd _ _ v => [v]
                     | CallReduce _ _ => []
                     end) cs.

(** ** Arithmetic of the 64-bit operations *)

Lemma wrap64_id z : int64_range z -> wrap64 z = z.
Proof.
  unfold int64_range, wrap64. intros H.
  rewrite Z.mod_small; lia.
Qed.

Lemma wrap64_range z : int64_range (wrap64 z).
Proof.
  unfold int64_range, wrap64.
  pose proof (Z.mod_pos_bound (z + 2 ^ 63) (2 ^ 64) ltac:(lia)). lia.
Qed.

Lemma add64_id a b : int64_range (a + b) -> add64 a b = a + b.
Proof. apply wrap64_id. Qed.

Lemma sub64_id a b : int64_range (a - b) -> sub64 a b = a - b.
Proof. apply wrap64_id. Qed.

Lemma rem64_nonneg a b :
  0 <= a -> 0 < b -> rem64 a b = Ok (a mod b).
Proof.
  intros Ha Hb. unfold rem64.
  destruct (Z.eqb_spec b 0); [lia |].
  by rewrite Z.rem_mod_nonneg.
Qed.

Lemma quot_int64 a b :
  int64_range a -> b <> 0 ->
  int64_range (Z.quot a b) \/ Z.quot a b = 2 ^ 63.
Proof.
  unfold int64_range. intros Ha Hb.
  assert (Hq : Z.abs (Z.quot a b) <= Z.abs a).
  { rewrite <- Z.quot_abs by done.
    apply Z.quot_le_upper_bound; [lia |].
    pose proof (Z.abs_nonneg a). nia. }
  lia.
Qed.

(** ** Slices *)

Lemma index_Ok {A : Type} (s : list A) (k : Z) :
  0 <= k < Z.of_nat (length s) ->
  exists x, index s k = Ok x /\ s !! Z.to_nat k = Some x.
Proof.
  intros Hk. unfold index.
  destruct (Z.leb_spec 0 k); [| lia].
  destruct (Z.ltb_spec k (Z.of_nat (length s))); [| lia]. simpl.
  destruct (lookup_lt_is_Some_2 s (Z.to_nat k)) as [x Hx]; [lia |].
  exists x. by rewrite Hx.
Qed.

Lemma index_inv {A : Type} (s : list A) (k : Z) (x : A) :
  index s k = Ok x -> s !! Z.to_nat k = Some x.
Proof.
  unfold index.
  destruct ((0 <=? k) && (k <? Z.of_nat (length s))); [| done].
  destruct (s !! Z.to_nat k); [| done]. by intros [= ->].
Qed.

(** ** [span] *)

Lemma span_quot now rw :
  interval rw <> 0 -> int64_range (size rw) ->
  span now rw = Ok (span_quot_spec now rw).
Proof.
  intros Hi Hs. unfold span, span_quot_spec, Since, div64.
  destruct (Z.eqb_spec (interval rw) 0); [done |]. simpl.
  destruct (quot_int64 (sub64 now (lastTime rw)) (interval rw)
              (wrap64_range _) Hi) as [Hq | Hq].
  - rewrite (wrap64_id _ Hq). by destruct (_ && _).
  - rewrite Hq. unfold int64_range in Hs.
    replace (wrap64 (2 ^ 63)) with (- 2 ^ 63) by (by vm_compute).
    destruct (Z.leb_spec 0 (- 2 ^ 63)); [lia |].
    destruct (Z.ltb_spec (2 ^ 63) (size rw)); [lia |].
    by rewrite andb_false_r.
Qed.

Lemma span_quot_spec_range now rw :
  0 <= size rw -> 0 <= span_quot_spec now rw <= size rw.
Proof.
  intros Hs. unfold span_quot_spec.
  destruct (Z.leb_spec 0 (Z.quot (sub64 now (lastTime rw)) (interval rw)));
    destruct (Z.ltb_spec (Z.quot (sub64 now (lastTime rw)) (interval rw))
                (size rw)); simpl; lia.
Qed.

Lemma span_Ok now rw :
  wf rw -> interval rw <> 0 ->
  exists sp, span now rw = Ok sp /\ 0 <= sp <= size rw.
Proof.
  intros [Hs _ _ _] Hi. exists (span_quot_spec now rw). split.
  - apply span_quot; [done |]. unfold int64_range. lia.
  - apply span_quot_spec_range. lia.
Qed.

Lemma span_zero_interval now rw :
  interval rw = 0 -> span now rw = Panic DivideByZero.
Proof. intros Hi. unfold span, div64. by rewrite Hi. Qed.

(** ** Construction *)

Lemma fold_config_only opts rw :
  Forall config_only opts ->
  exists b, fold_left (fun rw opt => opt rw) opts rw = set_ignoreCurrent b rw.
Proof.
  intros Hopts. revert rw.
  induction Hopts as [| opt opts Hopt _ IH]; intros rw; simpl.
  - exists (ignoreCurrent rw). by destruct rw.
  - destruct (IH (opt rw)) as [b ->]. exists b. by rewrite (Hopt rw).
Qed.

Lemma IgnoreCurrentBucket_config_only : config_only IgnoreCurrentBucket.
Proof. by intros rw. Qed.

Lemma max_slice_len_spec size0 :
  maxAlloc < ptrSize * size0 <-> max_slice_len < size0.
Proof.
  unfold max_slice_len, maxAlloc, ptrSize.
  replace (2 ^ 48 / 8) with (2 ^ 45) by reflexivity. lia.
Qed.

Lemma max_slice_len_wf size0 : size0 <= max_slice_len -> size0 < 2 ^ 62.
Proof.
  unfold max_slice_len, maxAlloc, ptrSize.
  replace (2 ^ 48 / 8) with (2 ^ 45) by reflexivity. lia.
Qed.

Lemma newWindow_cases size0 :
  newWindow size0 =
  if (size0 <? 0) || (max_slice_len <? size0)
  then Panic MakesliceLenOutOfRange
  else Ok (window.mk (replicate (Z.to_nat size0) Bucket.new) size0).
Proof.
  unfold newWindow.
  replace (maxAlloc <? ptrSize * size0) with (max_slice_len <? size0);
    [done |].
  pose proof (max_slice_len_spec size0).
  destruct (Z.ltb_spec max_slice_len size0),
    (Z.ltb_spec maxAlloc (ptrSize * size0)); (done || lia).
Qed.

Lemma NewRollingWindow_Ok size0 interval0 now opts :
  1 <= size0 <= max_slice_len -> Forall config_only opts ->
  exists b,
    NewRollingWindow size0 interval0 now opts =
    Ok (mkRollingWindow size0
          (window.mk (replicate (Z.to_nat size0) Bucket.new) size0)
          interval0 0 b now).
Proof.
  intros Hs Hopts. unfold NewRollingWindow. rewrite newWindow_cases.
  destruct (Z.ltb_spec size0 1); [lia |].
  destruct (Z.ltb_spec size0 0); [lia |].
  destruct (Z.ltb_spec max_slice_len size0); [lia |]. simpl.
  destruct (fold_config_only opts
              (mkRollingWindow size0
                 (window.mk (replicate (Z.to_nat size0) Bucket.new) size0)
                 interval0 0 false now) Hopts) as [b ->].
  by exists b.
Qed.

Lemma NewRollingWindow_wf size0 interval0 now opts rw :
  1 <= size0 <= max_slice_len -> Forall config_only opts ->
  NewRollingWindow size0 interval0 now opts = Ok rw ->
  wf rw /\ interval rw = interval0 /\ lastTime rw = now.
Proof.
  intros Hs Hopts Hnew.
  destruct (NewRollingWindow_Ok size0 interval0 now opts) as [b Hb];
    [lia | done |].
  rewrite Hb in Hnew. injection Hnew as <-. split; [| done].
  pose proof (max_slice_len_wf size0 ltac:(lia)).
  constructor; simpl; [lia | done | | lia].
  rewrite length_replicate. lia.
Qed.

(** ** Visits of ring slots *)

Lemma ring_slots_from_length i0 n start size0 :
  length (ring_slots_from i0 n start size0) = n.
Proof. unfold ring_slots_from. by rewrite length_fmap, length_seq. Qed.

Lemma ring_slots_from_range i0 n start size0 :
  0 < size0 ->
  Forall (fun k => 0 <= k < size0) (ring_slots_from i0 n start size0).
Proof.
  intros Hs. unfold ring_slots_from. apply Forall_fmap, Forall_forall.
  intros i _. simpl. apply Z.mod_pos_bound. lia.
Qed.

Lemma mod_inj_window (start size0 i j : Z) :
  0 < size0 -> 0 <= i < size0 -> 0 <= j < size0 ->
  (start + i) mod size0 = (start + j) mod size0 -> i = j.
Proof.
  intros Hs Hi Hj Heq.
  pose proof (Z.div_mod (start + i) size0 ltac:(lia)) as Ei.
  pose proof (Z.div_mod (start + j) size0 ltac:(lia)) as Ej.
  rewrite Heq in Ei.
  assert (Hq : (start + i) / size0 = (start + j) / size0) by nia.
  rewrite Hq in Ei. lia.
Qed.

Lemma ring_slots_from_NoDup i0 n start size0 :
  0 < size0 -> Z.of_nat i0 + Z.of_nat n <= size0 ->
  NoDup (ring_slots_from i0 n start size0).
Proof.
  intros Hs Hn. unfold ring_slots_from.
  apply NoDup_fmap_2_strong; [| apply NoDup_seq].
  intros i j Hi%elem_of_seq Hj%elem_of_seq Heq.
  apply Nat2Z.inj. apply (mod_inj_window start size0); [done | lia | lia | done].
Qed.


Lemma visit_slots_length {A : Type} (fn : Bucket -> A -> Bucket * A) slots :
  forall bs a, length (fst (visit_slots fn slots bs a)) = length bs.
Proof.
  induction slots as [| k slots IH]; intros bs a; simpl; [done |].
  destruct (bs !! Z.to_nat k) as [b |]; [| apply IH].
  destruct (fn b a) as [b' a']. rewrite IH. apply length_insert.
Qed.

(** A visitor that hands every bucket back as it was leaves the ring as it
    was. *)
Lemma visit_slots_readonly {A : Type} (fn : Bucket -> A -> Bucket * A) slots :
  (forall b a, fst (fn b a) = b) ->
  forall bs a, fst (visit_slots fn slots bs a) = bs.
Proof.
  intros Hfn. induction slots as [| k slots IH]; intros bs a; simpl; [done |].
  destruct (bs !! Z.to_nat k) as [b |] eqn:Hb; [| apply IH].
  pose proof (Hfn b a) as Hfst. destruct (fn b a) as [b' a']. simpl in Hfst.
  subst b'. rewrite list_insert_id by done. apply IH.
Qed.

Lemma visit_slots_count slots :
  forall bs n,
    Forall (fun k => 0 <= k < Z.of_nat (length bs)) slots ->
    visit_slots count_visit slots bs n = (bs, n + Z.of_nat (length slots)).
Proof.
  induction slots as [| k slots IH]; intros bs n Hr; simpl.
  - f_equal. lia.
  - apply Forall_cons in Hr as [Hk Hr].
    destruct (lookup_lt_is_Some_2 bs (Z.to_nat k)) as [b Hb]; [lia |].
    rewrite Hb. simpl. rewrite list_insert_id by done.
    rewrite IH by done. f_equal. lia.
Qed.

Lemma visit_reset_lookup slots :
  forall bs (j : nat),
    Forall (fun k => 0 <= k < Z.of_nat (length bs)) slots ->
    fst (visit_slots reset_visit slots bs tt) !! j =
    if decide (Z.of_nat j ∈ slots) then Some Bucket.new else bs !! j.
Proof.
  induction slots as [| k slots IH]; intros bs j Hr; cbn [visit_slots].
  - rewrite decide_False by apply not_elem_of_nil. done.
  - apply Forall_cons in Hr as [Hk Hr].
    destruct (lookup_lt_is_Some_2 bs (Z.to_nat k)) as [b Hb]; [lia |].
    rewrite Hb. cbn [reset_visit]. rewrite IH by (by rewrite length_insert).
    destruct (decide (Z.of_nat j ∈ slots)) as [Hin | Hnin].
    + rewrite decide_True; [done | apply elem_of_cons; by right].
    + destruct (decide (Z.of_nat j = k)) as [<- | Hne].
      * rewrite decide_True by (apply elem_of_cons; by left).
        rewrite Nat2Z.id. apply list_lookup_insert_eq.
        rewrite Nat2Z.id in Hb. by apply lookup_lt_Some in Hb.
      * rewrite decide_False.
        -- apply list_lookup_insert_ne. lia.
        -- intros [? | ?]%elem_of_cons; done.
Qed.

(** ** The two loops *)

Lemma reduce_loop_visits {A : Type} (fn : Bucket -> A -> Bucket * A) n :
  forall (i0 : nat) start w a,
    1 <= window.size w < 2 ^ 62 ->
    Z.of_nat (length (window.buckets w)) = window.size w ->
    0 <= start <= window.size w ->
    Z.of_nat i0 + Z.of_nat n <= window.size w ->
    window.reduce_loop n (Z.of_nat i0) start fn w a =
    Ok (let '(bs, a') :=
          visit_slots fn (ring_slots_from i0 n start (window.size w))
            (window.buckets w) a in
        (window.mk bs (window.size w), a')).
Proof.
  induction n as [| n IH]; intros i0 start w a Hs Hlen Hstart Hn.
  - simpl. by destruct w.
  - cbn [window.reduce_loop ring_slots_from seq fmap list_fmap visit_slots].
    rewrite add64_id by (unfold int64_range; lia).
    rewrite rem64_nonneg by lia. cbn [bind].
    pose proof (Z.mod_pos_bound (start + Z.of_nat i0) (window.size w)
                  ltac:(lia)) as Hk.
    destruct (index_Ok (window.buckets w)
                ((start + Z.of_nat i0) mod window.size w)) as (b & -> & ->);
      [lia |].
    cbn [bind]. destruct (fn b a) as [b' a'].
    replace (add64 (Z.of_nat i0) 1) with (Z.of_nat (S i0))
      by (rewrite add64_id; unfold int64_range; lia).
    rewrite IH; cbn [window.size window.buckets];
      [done | done | by rewrite length_insert | done | lia].
Qed.

Lemma reset_loop_visits n :
  forall (i0 : nat) o rw,
    wf rw -> 0 <= o < size rw ->
    Z.of_nat i0 + Z.of_nat n <= size rw ->
    reset_loop n (Z.of_nat i0) o rw =
    Ok (set_win
          (window.mk
             (fst (visit_slots reset_visit
                     (ring_slots_from i0 n (o + 1) (size rw))
                     (window.buckets (win rw)) tt))
             (size rw)) rw).
Proof.
  induction n as [| n IH]; intros i0 o rw Hwf Ho Hn.
  - destruct Hwf as [_ Hws _ _]. destruct rw as [s [bs ws] ? ? ? ?].
    simpl in *. by subst ws.
  - pose proof Hwf as [Hs Hws Hlen Hoff].
    cbn [reset_loop ring_slots_from seq fmap list_fmap visit_slots].
    rewrite !add64_id by (rewrite ?add64_id; unfold int64_range; lia).
    rewrite rem64_nonneg by lia. cbn [bind].
    replace (o + Z.of_nat i0 + 1) with (o + 1 + Z.of_nat i0) by lia.
    pose proof (Z.mod_pos_bound (o + 1 + Z.of_nat i0) (size rw) ltac:(lia))
      as Hk.
    unfold window.resetBucket, window.update. rewrite Hws.
    rewrite rem64_nonneg by lia. cbn [bind].
    rewrite Z.mod_mod by lia.
    destruct (index_Ok (window.buckets (win rw))
                ((o + 1 + Z.of_nat i0) mod size rw)) as (b & -> & ->); [lia |].
    cbn [bind reset_visit].
    replace (Z.of_nat i0 + 1) with (Z.of_nat (S i0)) by lia.
    rewrite IH; cbn [set_win size win window.buckets window.size];
      [done | | done | lia].
    constructor; cbn [set_win size win window.buckets window.size offset];
      [done | done | by rewrite length_insert | done].
Qed.


(** ** [Reduce], [updateOffset] and [Add] on well-formed controllers *)

Lemma validCount_range sp rw :
  1 <= size rw -> 0 <= sp <= size rw -> 0 <= validCount sp rw <= size rw.
Proof.
  intros Hs Hsp. unfold validCount. destruct ((sp =? 0) && ignoreCurrent rw); lia.
Qed.

Lemma Reduce_eq {A : Type} (fn : Bucket -> A -> Bucket * A) now rw a sp :
  wf rw -> span now rw = Ok sp -> 0 <= sp <= size rw ->
  Reduce now fn rw a =
  Ok (let '(bs, a') :=
        visit_slots fn
          (ring_slots ((offset rw + sp + 1) mod size rw) (validCount sp rw)
             (size rw))
          (window.buckets (win rw)) a in
      (set_win (window.mk bs (size rw)) rw, a')).
Proof.
  intros Hwf Hspan Hsp. pose proof Hwf as [Hs Hws Hlen Hoff].
  pose proof (validCount_range sp rw ltac:(lia) Hsp) as Hvc.
  unfold Reduce. rewrite Hspan. cbn [bind].
  replace (if (sp =? 0) && ignoreCurrent rw then sub64 (size rw) 1
           else sub64 (size rw) sp) with (validCount sp rw).
  2: { unfold validCount. destruct ((sp =? 0) && ignoreCurrent rw);
       rewrite sub64_id; unfold int64_range; lia. }
  destruct (Z.ltb_spec 0 (validCount sp rw)) as [Hpos | Hneg].
  - rewrite !add64_id by (rewrite ?add64_id; unfold int64_range; lia).
    rewrite rem64_nonneg by lia. cbn [bind].
    pose proof (Z.mod_pos_bound (offset rw + sp + 1) (size rw) ltac:(lia)).
    unfold window.reduce, ring_slots.
    rewrite (reduce_loop_visits fn _ 0%nat) by (rewrite ?Hws; lia).
    cbn [bind]. rewrite Hws. by destruct (visit_slots _ _ _ _).
  - unfold ring_slots. replace (validCount sp rw) with 0 by lia. simpl.
    destruct rw as [s [bs ws] ? ? ? ?]. simpl in *. by subst ws.
Qed.

Lemma Reduce_wf {A : Type} (fn : Bucket -> A -> Bucket * A) now rw a :
  wf rw -> interval rw <> 0 ->
  exists rw' a',
    Reduce now fn rw a = Ok (rw', a') /\ wf rw' /\
    size rw' = size rw /\ interval rw' = interval rw /\
    offset rw' = offset rw /\ lastTime rw' = lastTime rw /\
    ignoreCurrent rw' = ignoreCurrent rw.
Proof.
  intros Hwf Hi. destruct (span_Ok now rw Hwf Hi) as (sp & Hspan & Hsp).
  rewrite (Reduce_eq fn now rw a sp Hwf Hspan Hsp).
  pose proof (visit_slots_length fn
    (ring_slots ((offset rw + sp + 1) mod size rw) (validCount sp rw) (size rw))
    (window.buckets (win rw)) a) as Hl.
  destruct (visit_slots _ _ _ _) as [bs a']. simpl in Hl.
  eexists _, _. split; [done |]. destruct Hwf as [Hs Hws Hlen Hoff].
  split; [| done]. constructor; simpl; [done | done | by rewrite Hl | done].
Qed.

Lemma updateOffset_eq t_span t_now rw sp :
  wf rw -> interval rw <> 0 -> span t_span rw = Ok sp -> 0 <= sp <= size rw ->
  updateOffset t_span t_now rw =
  Ok (if sp <=? 0 then rw else advanced sp t_now rw).
Proof.
  intros Hwf Hi Hspan Hsp. pose proof Hwf as [Hs Hws Hlen Hoff].
  unfold updateOffset. rewrite Hspan. cbn [bind].
  destruct (Z.leb_spec sp 0) as [Hle | Hgt]; [done |].
  rewrite (reset_loop_visits _ 0%nat) by (done || lia). cbn [bind].
  cbn [set_win set_offset size win interval offset lastTime].
  rewrite add64_id by (unfold int64_range; lia).
  rewrite rem64_nonneg by lia. cbn [bind].
  unfold rem64. destruct (Z.eqb_spec (interval rw) 0); [done |]. done.
Qed.

Lemma advanced_wf sp t_now rw : wf rw -> wf (advanced sp t_now rw).
Proof.
  intros [Hs Hws Hlen Hoff]. constructor; simpl; [done | done | |].
  - by rewrite visit_slots_length.
  - apply Z.mod_pos_bound. lia.
Qed.

Lemma updateOffset_wf t_span t_now rw :
  wf rw -> interval rw <> 0 ->
  exists rw',
    updateOffset t_span t_now rw = Ok rw' /\ wf rw' /\
    size rw' = size rw /\ interval rw' = interval rw /\
    ignoreCurrent rw' = ignoreCurrent rw.
Proof.
  intros Hwf Hi. destruct (span_Ok t_span rw Hwf Hi) as (sp & Hspan & Hsp).
  rewrite (updateOffset_eq _ t_now _ _ Hwf Hi Hspan Hsp).
  eexists. split; [done |].
  destruct (sp <=? 0); [done |]. split; [by apply advanced_wf | done].
Qed.

Lemma window_add_Ok v rw :
  wf rw ->
  exists b,
    window.buckets (win rw) !! Z.to_nat (offset rw) = Some b /\
    window.add (offset rw) v (win rw) =
    Ok (window.mk
          (<[Z.to_nat (offset rw) := Bucket.add v b]> (window.buckets (win rw)))
          (size rw)).
Proof.
  intros [Hs Hws Hlen Hoff]. unfold window.add, window.update. rewrite Hws.
  rewrite rem64_nonneg by lia. cbn [bind]. rewrite Z.mod_small by lia.
  destruct (index_Ok (window.buckets (win rw)) (offset rw)) as (b & Hb & Hl);
    [lia |].
  exists b. by rewrite Hb.
Qed.

Lemma Add_wf t_span t_now v rw :
  wf rw -> interval rw <> 0 ->
  exists rw',
    Add t_span t_now v rw = Ok rw' /\ wf rw' /\
    size rw' = size rw /\ interval rw' = interval rw /\
    ignoreCurrent rw' = ignoreCurrent rw.
Proof.
  intros Hwf Hi.
  destruct (updateOffset_wf t_span t_now rw Hwf Hi)
    as (rw1 & Hup & Hwf1 & Hs1 & Hi1 & Hc1).
  unfold Add. rewrite Hup. cbn [bind].
  destruct (window_add_Ok v rw1 Hwf1) as (b & Hb & ->). cbn [bind].
  eexists. split; [done |]. destruct Hwf1 as [Hs Hws Hlen Hoff].
  split; [| done].
  constructor; simpl; [done | done | by rewrite length_insert | done].
Qed.

Lemma visited_eq now rw sp :
  wf rw -> span now rw = Ok sp -> 0 <= sp <= size rw ->
  visited now rw = Ok (validCount sp rw).
Proof.
  intros Hwf Hspan Hsp. pose proof Hwf as [Hs Hws Hlen Hoff].
  unfold visited. rewrite (Reduce_eq count_visit now rw 0 sp Hwf Hspan Hsp).
  rewrite visit_slots_count.
  2: { rewrite Hlen. apply ring_slots_from_range. lia. }
  cbn [bind snd]. unfold ring_slots. rewrite ring_slots_from_length.
  pose proof (validCount_range sp rw ltac:(lia) Hsp). f_equal. lia.
Qed.

Lemma reduce_loop_readonly {A : Type} (fn : Bucket -> A -> Bucket * A) n :
  (forall b a, fst (fn b a) = b) ->
  forall i start w a w' a',
    window.reduce_loop n i start fn w a = Ok (w', a') -> w' = w.
Proof.
  intros Hfn. induction n as [| n IH]; intros i start w a w' a'; simpl.
  - by intros [= -> _].
  - destruct (rem64 (add64 start i) (window.size w)) as [k |]; [| done].
    cbn [bind].
    destruct (index (window.buckets w) k) as [b |] eqn:Hb; [| done].
    cbn [bind]. apply index_inv in Hb.
    pose proof (Hfn b a) as Hfst. destruct (fn b a) as [b' a1].
    simpl in Hfst. subst b'. rewrite list_insert_id by done.
    intros Hloop. apply IH in Hloop. subst w'. by destruct w.
Qed.

Lemma Add_zero_interval t_span t_now v rw :
  interval rw = 0 -> Add t_span t_now v rw = Panic DivideByZero.
Proof.
  intros Hi. unfold Add, updateOffset. by rewrite span_zero_interval.
Qed.

Lemma Reduce_zero_interval {A : Type} (fn : Bucket -> A -> Bucket * A)
    now rw a :
  interval rw = 0 -> Reduce now fn rw a = Panic DivideByZero.
Proof. intros Hi. unfold Reduce. by rewrite span_zero_interval. Qed.

Lemma Add_eq t_span t_now v rw sp :
  wf rw -> interval rw <> 0 -> span t_span rw = Ok sp -> 0 <= sp <= size rw ->
  let rw1 := if sp <=? 0 then rw else advanced sp t_now rw in
  exists b,
    window.buckets (win rw1) !! Z.to_nat (offset rw1) = Some b /\
    Add t_span t_now v rw =
    Ok (set_win
          (window.mk
             (<[Z.to_nat (offset rw1) := Bucket.add v b]>
                (window.buckets (win rw1)))
             (size rw1)) rw1).
Proof.
  intros Hwf Hi Hspan Hsp rw1.
  assert (Hwf1 : wf rw1).
  { unfold rw1. destruct (sp <=? 0); [done | by apply advanced_wf]. }
  unfold Add. rewrite (updateOffset_eq _ t_now _ _ Hwf Hi Hspan Hsp).
  cbn [bind]. fold rw1.
  destruct (window_add_Ok v rw1 Hwf1) as (b & Hb & ->).
  exists b. done.
Qed.


(** ** Histories *)

Lemma do_call_wf c rw :
  wf rw -> interval rw <> 0 ->
  exists rw',
    do_call c rw = Ok rw' /\ wf rw' /\
    size rw' = size rw /\ interval rw' = interval rw /\
    ignoreCurrent rw' = ignoreCurrent rw.
Proof.
  intros Hwf Hi. destruct c as [t_span t_now v | now fn]; simpl.
  - by apply Add_wf.
  - destruct (Reduce_wf (store_only fn) now rw tt Hwf Hi)
      as (rw' & u & -> & Hwf' & Hs & Hi' & _ & _ & Hc).
    exists rw'. done.
Qed.

Lemma run_wf cs :
  forall rw,
    wf rw -> interval rw <> 0 ->
    exists rw',
      run cs rw = Ok rw' /\ wf rw' /\
      size rw' = size rw /\ interval rw' = interval rw /\
      ignoreCurrent rw' = ignoreCurrent rw.
Proof.
  induction cs as [| c cs IH]; intros rw Hwf Hi; simpl.
  - by exists rw.
  - destruct (do_call_wf c rw Hwf Hi) as (rw1 & -> & Hwf1 & Hs1 & Hi1 & Hc1).
    cbn [bind].
    assert (Hi1' : interval rw1 <> 0) by (by rewrite Hi1).
    destruct (IH rw1 Hwf1 Hi1') as (rw' & -> & Hwf' & Hs & Hi' & Hc).
    exists rw'. split; [done |]. split; [done |].
    split; [congruence |]. split; congruence.
Qed.

(** ** Realignment of [lastTime] *)

Lemma realign_arith now last iv :
  0 <= now < 2 ^ 63 -> 0 <= last < 2 ^ 63 -> iv <> 0 ->
  let r := Z.rem (now - last) iv in
  sub64 now (Z.rem (sub64 now last) iv) = now - r /\
  0 <= now - r < 2 ^ 63 /\
  (iv | now - r - last) /\
  (0 < iv -> now - (now - r) < iv) /\
  (last <= now -> 0 < iv -> r = (now - last) mod iv /\ now - r <= now).
Proof.
  intros Hnow Hlast Hiv r.
  rewrite (sub64_id now last) by (unfold int64_range; lia). fold r.
  pose proof (Z.quot_rem' (now - last) iv) as Hqr. fold r in Hqr.
  assert (Hr : (0 <= now - last -> 0 <= r <= now - last) /\
               (now - last <= 0 -> now - last <= r <= 0)).
  { split; intros Hsign.
    - pose proof (Z.mul_quot_le (now - last) iv Hsign Hiv). lia.
    - pose proof (Z.mul_quot_ge (now - last) iv Hsign Hiv). lia. }
  destruct Hr as [Hpos Hneg].
  assert (Hrange : 0 <= now - r < 2 ^ 63).
  { destruct (Z.le_ge_cases 0 (now - last)) as [H | H];
      [specialize (Hpos H) | specialize (Hneg H)]; lia. }
  split; [apply sub64_id; unfold int64_range; lia |].
  split; [done |]. split; [| split].
  - exists (Z.quot (now - last) iv). lia.
  - intros Hiv'. destruct (Z.le_ge_cases 0 (now - last)) as [H | H].
    + pose proof (Z.rem_bound_pos (now - last) iv H Hiv'). fold r in H0. lia.
    + specialize (Hneg H). lia.
  - intros Hle Hiv'. split; [| specialize (Hpos ltac:(lia)); lia].
    unfold r. apply Z.rem_mod_nonneg; lia.
Qed.

Lemma Add_lastTime t_span t_now v rw sp :
  wf rw -> interval rw <> 0 -> span t_span rw = Ok sp ->
  exists rw',
    Add t_span t_now v rw = Ok rw' /\ wf rw' /\
    interval rw' = interval rw /\
    lastTime rw' =
      if sp <=? 0 then lastTime rw
      else sub64 t_now (Z.rem (sub64 t_now (lastTime rw)) (interval rw)).
Proof.
  intros Hwf Hi Hspan.
  destruct (span_Ok t_span rw Hwf Hi) as (sp' & Hspan' & Hsp).
  rewrite Hspan in Hspan'. injection Hspan' as <-.
  destruct (Add_wf t_span t_now v rw Hwf Hi) as (rw' & Hadd & Hwf' & _ & Hi' & _).
  exists rw'. split; [done |]. split; [done |]. split; [done |].
  destruct (Add_eq t_span t_now v rw sp Hwf Hi Hspan Hsp) as (b & _ & Hadd').
  rewrite Hadd in Hadd'. injection Hadd' as ->.
  by destruct (sp <=? 0).
Qed.

Lemma do_call_aligned c rw :
  wf rw -> interval rw <> 0 -> 0 <= lastTime rw < 2 ^ 63 ->
  clock_nonneg [c] ->
  exists rw',
    do_call c rw = Ok rw' /\ wf rw' /\ interval rw' = interval rw /\
    0 <= lastTime rw' < 2 ^ 63 /\
    (interval rw | lastTime rw' - lastTime rw).
Proof.
  intros Hwf Hi Hlast Hclock. apply Forall_cons in Hclock as [Hc _].
  destruct c as [t_span t_now v | now fn]; simpl.
  - destruct (span_Ok t_span rw Hwf Hi) as (sp & Hspan & _).
    destruct (Add_lastTime t_span t_now v rw sp Hwf Hi Hspan)
      as (rw' & Hadd & Hwf' & Hi' & Hl).
    exists rw'. split; [done |]. split; [done |]. split; [done |].
    rewrite Hl. destruct (sp <=? 0).
    + split; [done |]. exists 0. lia.
    + destruct (realign_arith t_now (lastTime rw) (interval rw) Hc Hlast Hi)
        as (-> & Hrange & Hdiv & _). done.
  - destruct (Reduce_wf (store_only fn) now rw tt Hwf Hi)
      as (rw' & u & -> & Hwf' & _ & Hi' & _ & Hl & _).
    exists rw'. split; [done |]. split; [done |]. split; [done |].
    cbn [fst]. rewrite Hl. split; [done |]. exists 0. lia.
Qed.

Lemma run_aligned cs :
  forall rw,
    wf rw -> interval rw <> 0 -> 0 <= lastTime rw < 2 ^ 63 ->
    clock_nonneg cs ->
    exists rw',
      run cs rw = Ok rw' /\ wf rw' /\ interval rw' = interval rw /\
      0 <= lastTime rw' < 2 ^ 63 /\
      (interval rw | lastTime rw' - lastTime rw).
Proof.
  induction cs as [| c cs IH]; intros rw Hwf Hi Hlast Hclock; simpl.
  - exists rw. split; [done |]. split; [done |]. split; [done |].
    split; [done |]. exists 0. lia.
  - apply Forall_cons in Hclock as [Hc Hcs].
    destruct (do_call_aligned c rw Hwf Hi Hlast)
      as (rw1 & -> & Hwf1 & Hi1 & Hl1 & Hd1); [by constructor |].
    cbn [bind].
    assert (Hi1' : interval rw1 <> 0) by (by rewrite Hi1).
    destruct (IH rw1 Hwf1 Hi1' Hl1 Hcs) as (rw' & -> & Hwf' & Hi' & Hl' & Hd').
    exists rw'. split; [done |]. split; [done |].
    split; [congruence |]. split; [done |].
    rewrite Hi1 in Hd'.
    replace (lastTime rw' - lastTime rw)
      with ((lastTime rw' - lastTime rw1) + (lastTime rw1 - lastTime rw))
      by lia.
    by apply Z.divide_add_r.
Qed.

(** * The claims *)

(** C1, as the specification words it (the raw span is a floor, and every
    backward step of the clock gives [size]), fails: five units before
    [lastTime] the floor is [-1], so the specification answers [size = 3],
    while the code divides with truncation and answers [0]. *)
Lemma span_floor_counterexample :
  NewRollingWindow 3 10 10 [] = Ok regressed_window /\
  span 5 regressed_window = Ok 0 /\
  span_floor_spec 5 regressed_window = 3 /\
  span 5 regressed_window <> Ok (span_floor_spec 5 regressed_window).
Proof. repeat split; try (by vm_compute). Qed.

(** C1 (amended): with a non-zero interval and [size] a 64-bit int, [span]
    returns the raw span when it lies in [0, size) and [size] otherwise,
    where the raw span is the quotient, truncated toward zero, of the
    elapsed time by [interval], and the elapsed time is the 64-bit
    difference [now - lastTime] (the exact difference whenever that fits in
    64 bits).  The raw span is the floor when the elapsed time is
    non-negative and the interval positive.  With a positive interval: a
    backward step of the clock by less than one interval has raw span 0, so
    [span] returns 0 for [size >= 1]; a backward step by a whole interval or
    more returns [size]; so does an elapsed time of [size] intervals or
    more. *)
Theorem span_truncated_quotient now rw :
  interval rw <> 0 -> int64_range (size rw) ->
  let elapsed := sub64 now (lastTime rw) in
  let rawSpan := Z.quot elapsed (interval rw) in
  span now rw =
    Ok (if (0 <=? rawSpan) && (rawSpan <? size rw) then rawSpan else size rw) /\
  (int64_range (now - lastTime rw) -> elapsed = now - lastTime rw) /\
  (0 <= elapsed -> 0 < interval rw -> rawSpan = elapsed / interval rw) /\
  (0 < interval rw -> - interval rw < elapsed < 0 ->
   rawSpan = 0 /\ (1 <= size rw -> span now rw = Ok 0)) /\
  (0 < interval rw -> elapsed <= - interval rw ->
   span now rw = Ok (size rw)) /\
  (0 < interval rw -> size rw * interval rw <= elapsed ->
   span now rw = Ok (size rw)).
Proof.
  intros Hi Hs elapsed rawSpan.
  assert (Hspan : span now rw =
    Ok (if (0 <=? rawSpan) && (rawSpan <? size rw) then rawSpan
        else size rw)).
  { rewrite span_quot by done. done. }
  split; [done |]. split; [| split; [| split; [| split]]].
  - intros Hr. by apply sub64_id.
  - intros H0 Hpos. apply Z.quot_div_nonneg; lia.
  - intros Hpos Hsmall.
    assert (Hq : rawSpan = 0).
    { apply Z.quot_small_iff; [done | lia]. }
    split; [done |]. intros Hsz. rewrite Hspan, Hq.
    destruct (Z.ltb_spec 0 (size rw)); [done | lia].
  - intros Hpos Hback. rewrite Hspan.
    assert (Hq : rawSpan < 0).
    { unfold rawSpan. replace elapsed with (- (- elapsed)) by lia.
      rewrite Z.quot_opp_l by lia.
      assert (1 <= Z.quot (- elapsed) (interval rw));
        [apply Z.quot_le_lower_bound; lia | lia]. }
    destruct (Z.leb_spec 0 rawSpan); [lia | done].
  - intros Hpos Hlate. rewrite Hspan.
    assert (Hq : size rw <= rawSpan).
    { apply Z.quot_le_lower_bound; lia. }
    destruct (Z.ltb_spec rawSpan (size rw)); [lia |].
    by rewrite andb_false_r.
Qed.

Lemma span_truncated_quotient_witness :
  span 25 regressed_window = Ok 1 /\ span 5 regressed_window = Ok 0 /\
  span (-15) regressed_window = Ok 3 /\ span 45 regressed_window = Ok 3.
Proof.
  split; [| split; [| split]].
  - apply (span_truncated_quotient 25 regressed_window);
      [discriminate | by vm_compute].
  - destruct (span_truncated_quotient 5 regressed_window)
      as (_ & _ & _ & Hsmall & _); [discriminate | by vm_compute |].
    apply Hsmall; by vm_compute.
  - destruct (span_truncated_quotient (-15) regressed_window)
      as (_ & _ & _ & _ & Hback & _); [discriminate | by vm_compute |].
    apply Hback; by vm_compute.
  - destruct (span_truncated_quotient 45 regressed_window)
      as (_ & _ & _ & _ & _ & Hlate); [discriminate | by vm_compute |].
    apply Hlate; by vm_compute.
Defined.

(** C2: on a well-formed controller with a non-zero interval, [Reduce]
    mutates nothing but what the visitor stores in the buckets it is handed;
    with [sp] the span, the count is [size - 1] if [sp = 0] and
    [ignoreCurrent] is set and [size - sp] otherwise; the visitor is applied
    once to each of the [count] consecutive, pairwise distinct ring slots
    starting at [(offset + sp + 1) mod size], in ascending ring order, and
    not at all when the count is not positive. *)
Theorem Reduce_visits_valid_slots {A : Type}
    (fn : Bucket -> A -> Bucket * A) now rw a :
  wf rw -> interval rw <> 0 ->
  exists sp,
    span now rw = Ok sp /\
    let count :=
      if (sp =? 0) && ignoreCurrent rw then size rw - 1 else size rw - sp in
    let start := (offset rw + sp + 1) mod size rw in
    let slots := ring_slots start count (size rw) in
    Reduce now fn rw a =
      Ok (let '(bs, a') := visit_slots fn slots (window.buckets (win rw)) a in
          (set_win (window.mk bs (size rw)) rw, a')) /\
    length slots = Z.to_nat count /\
    NoDup slots /\
    (forall i : nat,
       (i < Z.to_nat count)%nat ->
       slots !! i = Some ((start + Z.of_nat i) mod size rw) /\
       is_Some (window.buckets (win rw) !! Z.to_nat ((start + Z.of_nat i) mod size rw))) /\
    visited now rw = Ok (Z.max 0 count) /\
    (count <= 0 -> Reduce now fn rw a = Ok (rw, a)).
Proof.
  intros Hwf Hi. destruct (span_Ok now rw Hwf Hi) as (sp & Hspan & Hsp).
  pose proof Hwf as [Hs Hws Hlen Hoff].
  pose proof (validCount_range sp rw ltac:(lia) Hsp) as Hvc.
  exists sp. split; [done |]. fold (validCount sp rw).
  cbv zeta. repeat split.
  - by apply Reduce_eq.
  - apply ring_slots_from_length.
  - apply ring_slots_from_NoDup; lia.
  - unfold ring_slots, ring_slots_from.
    rewrite list_lookup_fmap, lookup_seq_lt by done. done.
  - apply lookup_lt_is_Some_2.
    pose proof (Z.mod_pos_bound
      ((offset rw + sp + 1) mod size rw + Z.of_nat i) (size rw) ltac:(lia)).
    lia.
  - rewrite (visited_eq now rw sp) by done. f_equal. lia.
  - intros Hle. rewrite (Reduce_eq fn now rw a sp) by done.
    unfold ring_slots. replace (validCount sp rw) with 0 by lia. simpl.
    destruct rw as [s [bs ws] ? ? ? ?]. simpl in *. by subst ws.
Qed.

Lemma Reduce_visits_valid_slots_witness :
  exists sp,
    span 25 regressed_window = Ok sp /\
    visited 25 regressed_window = Ok (Z.max 0 (3 - sp)).
Proof.
  destruct (Reduce_visits_valid_slots count_visit 25 regressed_window 0)
    as (sp & Hspan & _ & _ & _ & _ & Hvisited & _).
  - constructor; by vm_compute.
  - discriminate.
  - exists sp. split; [exact Hspan |].
    destruct (sp =? 0); simpl in Hvisited; exact Hvisited.
Defined.

(** C4 (scenario B): size 3, interval 10ms, [Add(1.0)] at 0 and [Add(2.0)]
    at 10ms; a [Reduce] at 10ms without [ignoreCurrent] visits exactly 3
    buckets, the one written at 0 (sum 1.0) among them, with totals
    sum 3.0 and count 2. *)
Theorem scenarioB_reduce :
  scenarioB = Ok after_B /\
  Reduce (10 * Millisecond) collect after_B [] =
    Ok (after_B, [Bucket.new; mkBucket 1 1; mkBucket 2 1]) /\
  Reduce (10 * Millisecond) tally after_B (0%float, 0, 0) =
    Ok (after_B, (3%float, 2, 3)).
Proof. repeat split; by vm_compute. Qed.

(** C5 (scenario A): size 3, interval 10ms, one [Add(1.0)] at 0; an
    immediate [Reduce] without [ignoreCurrent] visits exactly 3 buckets with
    totals sum 1.0 and count 1; with [ignoreCurrent] it visits exactly 2
    buckets, the current one left out, with totals sum 0 and count 0. *)
Theorem scenarioA_reduce :
  scenarioA [] = Ok (after_A false) /\
  Reduce 0 collect (after_A false) [] =
    Ok (after_A false, [Bucket.new; Bucket.new; mkBucket 1 1]) /\
  Reduce 0 tally (after_A false) (0%float, 0, 0) =
    Ok (after_A false, (1%float, 1, 3)) /\
  scenarioA [IgnoreCurrentBucket] = Ok (after_A true) /\
  Reduce 0 collect (after_A true) [] =
    Ok (after_A true, [Bucket.new; Bucket.new]) /\
  Reduce 0 tally (after_A true) (0%float, 0, 0) =
    Ok (after_A true, (0%float, 0, 2)).
Proof. repeat split; by vm_compute. Qed.

(** C8: a visitor that does not store through the pointers it is handed
    leaves the whole controller as it was: whenever [Reduce] returns, the
    controller it returns is the one it was given, and on a well-formed
    controller with a non-zero interval it does return. *)
Theorem Reduce_readonly {A : Type} (fn : Bucket -> A -> Bucket * A) now rw a :
  (forall b x, fst (fn b x) = b) ->
  (forall rw' a', Reduce now fn rw a = Ok (rw', a') -> rw' = rw) /\
  (wf rw -> interval rw <> 0 -> exists a', Reduce now fn rw a = Ok (rw, a')).
Proof.
  intros Hfn.
  assert (Hsame : forall rw' a', Reduce now fn rw a = Ok (rw', a') -> rw' = rw).
  { intros rw' a'. unfold Reduce.
    destruct (span now rw) as [sp |]; [| done]. cbn [bind].
    destruct (0 <? _); [| by intros [= -> _]].
    destruct (rem64 _ _) as [o |]; [| done]. cbn [bind].
    unfold window.reduce.
    destruct (window.reduce_loop _ _ _ _ _ _) as [[w a1] |] eqn:Hloop; [| done].
    cbn [bind]. apply reduce_loop_readonly in Hloop; [| done]. subst w.
    intros [= <- _]. by destruct rw. }
  split; [done |]. intros Hwf Hi.
  destruct (Reduce_wf fn now rw a Hwf Hi) as (rw' & a' & Hred & _).
  exists a'. by rewrite Hred, (Hsame _ _ Hred).
Qed.

Lemma Reduce_readonly_witness :
  exists acc, Reduce 25 tally regressed_window (0%float, 0, 0) =
              Ok (regressed_window, acc).
Proof.
  apply (Reduce_readonly tally 25 regressed_window).
  - intros b [[s c] n]. reflexivity.
  - constructor; by vm_compute.
  - discriminate.
Defined.

(** C9, as worded, fails above the allocation limit of [make]: with
    [size = 2 ^ 47] the check [size < 1] passes and [make([]*Bucket, size)]
    panics, so the constructor fails although [size >= 1], and returns no
    controller. *)
Lemma NewRollingWindow_makeslice_counterexample :
  1 <= 2 ^ 47 /\
  NewRollingWindow (2 ^ 47) 10 0 [] = Panic MakesliceLenOutOfRange /\
  ~ (exists rw, NewRollingWindow (2 ^ 47) 10 0 [] = Ok rw).
Proof.
  assert (Hnew : NewRollingWindow (2 ^ 47) 10 0 [] =
                 Panic MakesliceLenOutOfRange) by (by vm_compute).
  split; [done |]. split; [done |].
  intros [rw Hrw]. rewrite Hnew in Hrw. discriminate.
Qed.

(** C9 (amended): the constructor raises its own panic exactly when
    [size < 1]; it fails in [make] exactly when [size] is above the longest
    slice [make] accepts; and for every [size] from 1 up to that length it
    returns a controller whose ring holds [size] empty buckets. *)
Theorem NewRollingWindow_size size0 interval0 now opts :
  Forall config_only opts ->
  (size0 < 1 <->
   NewRollingWindow size0 interval0 now opts =
   Panic (Message "size must be greater than 0")) /\
  (max_slice_len < size0 <->
   NewRollingWindow size0 interval0 now opts = Panic MakesliceLenOutOfRange) /\
  (size0 < 1 \/ max_slice_len < size0 <->
   exists p, NewRollingWindow size0 interval0 now opts = Panic p) /\
  (1 <= size0 <= max_slice_len ->
   exists rw,
     NewRollingWindow size0 interval0 now opts = Ok rw /\
     size rw = size0 /\ window.size (win rw) = size0 /\
     window.buckets (win rw) = replicate (Z.to_nat size0) Bucket.new /\
     Z.of_nat (length (window.buckets (win rw))) = size0 /\
     Forall (fun b => b = mkBucket 0 0) (window.buckets (win rw))).
Proof.
  intros Hopts.
  assert (Hlen : 1 <= max_slice_len) by (by vm_compute).
  assert (Hsmall : size0 < 1 ->
    NewRollingWindow size0 interval0 now opts =
    Panic (Message "size must be greater than 0")).
  { intros Hlt. unfold NewRollingWindow.
    by destruct (Z.ltb_spec size0 1); [| lia]. }
  assert (Hlarge : max_slice_len < size0 ->
    NewRollingWindow size0 interval0 now opts = Panic MakesliceLenOutOfRange).
  { intros Hgt. unfold NewRollingWindow. rewrite newWindow_cases.
    destruct (Z.ltb_spec size0 1); [lia |].
    destruct (Z.ltb_spec max_slice_len size0); [| lia].
    by rewrite orb_true_r. }
  assert (Hbig : 1 <= size0 <= max_slice_len ->
    exists b, NewRollingWindow size0 interval0 now opts =
      Ok (mkRollingWindow size0
            (window.mk (replicate (Z.to_nat size0) Bucket.new) size0)
            interval0 0 b now)).
  { intros Hge. by apply NewRollingWindow_Ok. }
  assert (Hcases : size0 < 1 \/ max_slice_len < size0 \/
                   1 <= size0 <= max_slice_len) by lia.
  split; [| split; [| split]].
  - split; [done |]. intros Hp.
    destruct Hcases as [| [Hgt | Hin]]; [done | |].
    + rewrite (Hlarge Hgt) in Hp. discriminate.
    + destruct (Hbig Hin) as [b Hb]. congruence.
  - split; [done |]. intros Hp.
    destruct Hcases as [Hlt | [| Hin]]; [| done |].
    + rewrite (Hsmall Hlt) in Hp. discriminate.
    + destruct (Hbig Hin) as [b Hb]. congruence.
  - split; [intros [? | ?]; eauto |]. intros [p Hp].
    destruct Hcases as [| [| Hin]]; [by left | by right |].
    destruct (Hbig Hin) as [b Hb]. congruence.
  - intros Hin. destruct (Hbig Hin) as [b ->]. eexists. split; [done |].
    simpl. repeat split.
    + rewrite length_replicate. lia.
    + apply Forall_replicate. done.
Qed.

Lemma NewRollingWindow_size_witness :
  exists rw,
    NewRollingWindow 3 10 10 [IgnoreCurrentBucket] = Ok rw /\
    window.buckets (win rw) = [Bucket.new; Bucket.new; Bucket.new].
Proof.
  destruct (NewRollingWindow_size 3 10 10 [IgnoreCurrentBucket])
    as (_ & _ & _ & Hbig).
  - repeat constructor.
  - destruct Hbig as (rw & Hnew & _ & _ & Hbs & _); [by vm_compute |].
    exists rw. split; [exact Hnew | exact Hbs].
Defined.

(** C10, as worded, fails above the allocation limit of [make]: with
    [interval = 0] and [size = 2 ^ 47] the constructor does not construct,
    it panics in [make]. *)
Lemma zero_interval_makeslice_counterexample :
  1 <= 2 ^ 47 /\
  NewRollingWindow (2 ^ 47) 0 0 [] = Panic MakesliceLenOutOfRange /\
  ~ (exists rw, NewRollingWindow (2 ^ 47) 0 0 [] = Ok rw).
Proof.
  assert (Hnew : NewRollingWindow (2 ^ 47) 0 0 [] =
                 Panic MakesliceLenOutOfRange) by (by vm_compute).
  split; [done |]. split; [done |].
  intros [rw Hrw]. rewrite Hnew in Hrw. discriminate.
Qed.

(** C10 (amended): the constructor does not look at [interval]: for every
    [size] from 1 up to the longest slice [make] accepts it builds a
    controller with [interval = 0], and on that controller every [Add] and
    every [Reduce] panics with an integer division by zero (inside
    [span]). *)
Theorem zero_interval_panics size0 now opts :
  1 <= size0 <= max_slice_len -> Forall config_only opts ->
  exists rw,
    NewRollingWindow size0 0 now opts = Ok rw /\
    interval rw = 0 /\
    (forall t, span t rw = Panic DivideByZero) /\
    (forall t_span t_now v, Add t_span t_now v rw = Panic DivideByZero) /\
    (forall (A : Type) (fn : Bucket -> A -> Bucket * A) t a,
       Reduce t fn rw a = Panic DivideByZero).
Proof.
  intros Hs Hopts.
  destruct (NewRollingWindow_Ok size0 0 now opts Hs Hopts) as [b ->].
  eexists. split; [done |]. split; [done |]. split; [| split].
  - intros t. by apply span_zero_interval.
  - intros. by apply Add_zero_interval.
  - intros. by apply Reduce_zero_interval.
Qed.

Lemma zero_interval_panics_witness :
  exists rw,
    NewRollingWindow 3 0 0 [] = Ok rw /\
    Add 5 5 1%float rw = Panic DivideByZero /\
    Reduce 5 tally rw (0%float, 0, 0) = Panic DivideByZero.
Proof.
  destruct (zero_interval_panics 3 0 [])
    as (rw & Hnew & _ & _ & Hadd & Hred).
  - by vm_compute.
  - constructor.
  - exists rw. split; [exact Hnew |]. split; [apply Hadd | apply Hred].
Defined.



(** C6, as worded, fails on scenario B: the second [Add] finds one bucket
    stale (span 1) and resets it, and the [Reduce] that follows still visits
    all 3 buckets. *)
Lemma ever_stale_counterexample :
  NewRollingWindow 3 (10 * Millisecond) 0 [] = Ok fresh_window /\
  run scenarioB_calls fresh_window = Ok after_B /\
  ever_stale scenarioB_calls fresh_window = true /\
  visited (10 * Millisecond) after_B = Ok (size after_B) /\
  ~ bucket_count_claim scenarioB_calls fresh_window (10 * Millisecond).
Proof.
  assert (Hrun : run scenarioB_calls fresh_window = Ok after_B)
    by (by vm_compute).
  assert (Hvis : visited (10 * Millisecond) after_B = Ok (size after_B))
    by (by vm_compute).
  split; [by vm_compute |]. split; [done |].
  split; [by vm_compute |]. split; [done |].
  intros Hclaim.
  destruct (Hclaim after_B (size after_B) Hrun Hvis) as [_ Hsize].
  destruct (Hsize eq_refl) as [Hstale _].
  vm_compute in Hstale. discriminate.
Qed.

(** C6 (amended): after every sequence of [Add] and [Reduce] calls, the
    number of buckets a [Reduce] visits is in [0, size], and it is [size]
    exactly when the span of that [Reduce] is 0 and [ignoreCurrent] is
    false. *)
Theorem Reduce_visit_count_bounds cs rw0 now :
  wf rw0 -> interval rw0 <> 0 ->
  exists rw sp n,
    run cs rw0 = Ok rw /\ size rw = size rw0 /\
    span now rw = Ok sp /\ visited now rw = Ok n /\
    0 <= n <= size rw /\
    (n = size rw <-> sp = 0 /\ ignoreCurrent rw = false).
Proof.
  intros Hwf0 Hi0.
  destruct (run_wf cs rw0 Hwf0 Hi0) as (rw & Hrun & Hwf & Hs & Hi & _).
  assert (Hi' : interval rw <> 0) by (by rewrite Hi).
  destruct (span_Ok now rw Hwf Hi') as (sp & Hspan & Hsp).
  pose proof Hwf as [Hsz _ _ _].
  exists rw, sp, (validCount sp rw).
  split; [done |]. split; [done |]. split; [done |].
  split; [by apply visited_eq |].
  split; [apply validCount_range; lia |].
  unfold validCount.
  destruct (Z.eqb_spec sp 0) as [-> | Hne]; destruct (ignoreCurrent rw); simpl.
  - split; [lia | by intros [_ ?]].
  - split; [done | lia].
  - split; [lia | by intros [_ ?]].
  - split; [lia | by intros [? _]].
Qed.

Lemma Reduce_visit_count_bounds_witness :
  exists rw sp n,
    run scenarioB_calls fresh_window = Ok rw /\
    span (25 * Millisecond) rw = Ok sp /\
    visited (25 * Millisecond) rw = Ok n /\ 0 <= n <= size rw.
Proof.
  destruct (Reduce_visit_count_bounds scenarioB_calls fresh_window
              (25 * Millisecond))
    as (rw & sp & n & Hrun & _ & Hspan & Hvis & Hn & _).
  - constructor; by vm_compute.
  - discriminate.
  - exists rw, sp, n. repeat split; (exact Hrun || exact Hspan || exact Hvis
                                      || apply Hn).
Defined.

(** C3, as worded, fails when the clock goes backward: built at reading 100
    with interval 10, an [Add] at reading 75 has span [size] (the raw span is
    -2), so the cursor advances, and the new [lastTime] is 80: it is after
    [now], and it is not [now] minus the (non-negative) residue of
    [now - lastTime] modulo the interval, which would be 70. *)
Lemma realign_regression_counterexample :
  NewRollingWindow 3 10 100 [] = Ok late_window /\
  span 75 late_window = Ok 3 /\
  updateOffset 75 75 late_window = Ok (set_lastTime 80 late_window) /\
  ~ (lastTime (set_lastTime 80 late_window) <= 75) /\
  lastTime (set_lastTime 80 late_window) <>
    75 - (75 - lastTime late_window) mod interval late_window.
Proof. repeat split; by vm_compute. Qed.

(** C3 (amended): with a positive interval and non-negative clock readings,
    after any history of calls followed by an [Add], the new [lastTime] is
    congruent to the initial one modulo the interval; when that [Add]
    advances the cursor (its span is positive) the new [lastTime] is [now]
    minus Go's remainder of [now - lastTime] by the interval and
    [now - lastTime < interval] holds after it; when moreover the clock has
    not gone back ([lastTime <= now]) the remainder is the residue modulo
    the interval and the new [lastTime] lies at or before [now]. *)
Theorem lastTime_realigned cs t_span t_now v rw0 :
  wf rw0 -> 0 < interval rw0 -> 0 <= lastTime rw0 < 2 ^ 63 ->
  clock_nonneg (cs ++ [CallAdd t_span t_now v]) ->
  exists rw rw' sp,
    run cs rw0 = Ok rw /\ span t_span rw = Ok sp /\
    Add t_span t_now v rw = Ok rw' /\
    interval rw' = interval rw0 /\
    (lastTime rw' - lastTime rw0) mod interval rw0 = 0 /\
    (0 < sp ->
     lastTime rw' = t_now - Z.rem (t_now - lastTime rw) (interval rw0) /\
     t_now - lastTime rw' < interval rw0 /\
     (lastTime rw <= t_now ->
      lastTime rw' = t_now - (t_now - lastTime rw) mod interval rw0 /\
      lastTime rw' <= t_now)).
Proof.
  intros Hwf0 Hi0 Hl0 Hclock.
  apply Forall_app in Hclock as [Hcs Hc].
  assert (Hi0' : interval rw0 <> 0) by lia.
  destruct (run_aligned cs rw0 Hwf0 Hi0' Hl0 Hcs)
    as (rw & Hrun & Hwf & Hi & Hl & Hd).
  assert (Hi' : interval rw <> 0) by lia.
  destruct (span_Ok t_span rw Hwf Hi') as (sp & Hspan & Hsp).
  destruct (Add_lastTime t_span t_now v rw sp Hwf Hi' Hspan)
    as (rw' & Hadd & Hwf' & Hi2 & Hlast).
  pose proof Hc as Hc'. apply Forall_cons in Hc' as [Hnow _].
  destruct (realign_arith t_now (lastTime rw) (interval rw) Hnow Hl Hi')
    as (Hsub & Hrange & Hdiv & Hlt & Hmono).
  exists rw, rw', sp. split; [done |]. split; [done |]. split; [done |].
  split; [congruence |]. rewrite Hi in *. split.
  - apply Z.mod_divide; [lia |].
    replace (lastTime rw' - lastTime rw0)
      with ((lastTime rw' - lastTime rw) + (lastTime rw - lastTime rw0))
      by lia.
    apply Z.divide_add_r; [| done]. rewrite Hlast.
    destruct (sp <=? 0); [exists 0; lia |]. by rewrite Hsub.
  - intros Hpos. destruct (Z.leb_spec sp 0); [lia |].
    rewrite Hlast, Hsub. split; [done |]. split; [by apply Hlt |].
    intros Hle. destruct (Hmono Hle Hi0) as [<- Hle']. done.
Qed.

Lemma lastTime_realigned_witness :
  exists rw rw',
    run scenarioB_calls fresh_window = Ok rw /\
    Add (37 * Millisecond) (38 * Millisecond) 1%float rw = Ok rw' /\
    (lastTime rw' - 0) mod (10 * Millisecond) = 0.
Proof.
  destruct (lastTime_realigned scenarioB_calls (37 * Millisecond)
              (38 * Millisecond) 1%float fresh_window)
    as (rw & rw' & sp & Hrun & _ & Hadd & _ & Hmod & _).
  - constructor; by vm_compute.
  - by vm_compute.
  - by vm_compute.
  - repeat constructor; by vm_compute.
  - exists rw, rw'. split; [exact Hrun |]. split; [exact Hadd | exact Hmod].
Defined.

(** * Further properties of the code *)

(** ** Auxiliary facts *)

Lemma ring_slots_from_elem k i0 n start size0 :
  k ∈ ring_slots_from i0 n start size0 <->
  exists i : nat, (i0 <= i < i0 + n)%nat /\ k = (start + Z.of_nat i) mod size0.
Proof.
  unfold ring_slots_from. rewrite list_elem_of_fmap. split.
  - intros (i & -> & Hi%elem_of_seq). by exists i.
  - intros (i & Hi & ->). exists i. by rewrite elem_of_seq.
Qed.

Lemma span_small now rw :
  interval rw <> 0 -> 1 <= size rw < 2 ^ 63 ->
  Z.abs (sub64 now (lastTime rw)) < Z.abs (interval rw) ->
  span now rw = Ok 0.
Proof.
  intros Hi Hs Hsmall.
  rewrite span_quot by (done || unfold int64_range; lia).
  unfold span_quot_spec.
  replace (Z.quot (sub64 now (lastTime rw)) (interval rw)) with 0
    by (symmetry; by apply Z.quot_small_iff).
  destruct (Z.ltb_spec 0 (size rw)); [done | lia].
Qed.

Lemma visit_slots_frame {A : Type} (fn : Bucket -> A -> Bucket * A) slots :
  forall bs a (j : nat),
    Forall (fun k => 0 <= k) slots -> Z.of_nat j ∉ slots ->
    fst (visit_slots fn slots bs a) !! j = bs !! j.
Proof.
  induction slots as [| k slots IH]; intros bs a j Hpos Hnin; simpl; [done |].
  apply Forall_cons in Hpos as [Hk Hpos].
  apply not_elem_of_cons in Hnin as [Hne Hnin].
  destruct (bs !! Z.to_nat k) as [b |]; [| by apply IH].
  destruct (fn b a) as [b' a']. rewrite IH by done.
  apply list_lookup_insert_ne. lia.
Qed.

(** ** [Add] *)

(** X1: an [Add] within one interval of [lastTime] (on either side) does not
    move the cursor: it returns the controller it was given with the value
    added to the bucket under the cursor, and nothing else changed. *)
Theorem Add_same_slice t_span t_now v rw :
  wf rw -> 0 < interval rw ->
  int64_range (t_span - lastTime rw) ->
  - interval rw < t_span - lastTime rw < interval rw ->
  exists b,
    window.buckets (win rw) !! Z.to_nat (offset rw) = Some b /\
    Add t_span t_now v rw =
    Ok (set_win
          (window.mk
             (<[Z.to_nat (offset rw) :=
                  mkBucket (Sum b + v)%float (add64 (Count b) 1)]>
                (window.buckets (win rw)))
             (size rw)) rw).
Proof.
  intros Hwf Hi Hr Hnear. pose proof Hwf as [Hs _ _ _].
  assert (Hspan : span t_span rw = Ok 0).
  { apply span_small; [lia | lia |]. rewrite sub64_id by done. lia. }
  destruct (Add_eq t_span t_now v rw 0 Hwf ltac:(lia) Hspan ltac:(lia))
    as (b & Hb & Hadd).
  exists b. done.
Qed.

Lemma Add_same_slice_witness :
  exists b,
    window.buckets (win after_B) !! Z.to_nat (offset after_B) = Some b /\
    Add (19 * Millisecond) (19 * Millisecond) 4%float after_B =
    Ok (set_win
          (window.mk
             (<[Z.to_nat (offset after_B) :=
                  mkBucket (Sum b + 4)%float (add64 (Count b) 1)]>
                (window.buckets (win after_B)))
             (size after_B)) after_B).
Proof.
  apply (Add_same_slice (19 * Millisecond) (19 * Millisecond) 4%float after_B).
  - constructor; by vm_compute.
  - by vm_compute.
  - by vm_compute.
  - by vm_compute.
Defined.

(** X2: an [Add] whose span [sp] is positive moves the cursor [sp] slots
    forward (modulo [size]); the value lands in a bucket that was reset
    first, so that bucket holds just this one value; the slots the cursor
    passed over are empty; every other bucket is as it was. *)
Theorem Add_advance t_span t_now v rw sp :
  wf rw -> interval rw <> 0 -> span t_span rw = Ok sp -> 0 < sp ->
  exists rw',
    Add t_span t_now v rw = Ok rw' /\
    offset rw' = (offset rw + sp) mod size rw /\
    window.buckets (win rw') !! Z.to_nat (offset rw') =
      Some (mkBucket (0 + v)%float 1) /\
    (forall i, 0 <= i < sp - 1 ->
       window.buckets (win rw') !! Z.to_nat ((offset rw + 1 + i) mod size rw) =
       Some (mkBucket 0 0)) /\
    (forall j : nat,
       (forall i, 0 <= i < sp -> Z.of_nat j <> (offset rw + 1 + i) mod size rw) ->
       window.buckets (win rw') !! j = window.buckets (win rw) !! j).
Proof.
  intros Hwf Hi Hspan Hpos. pose proof Hwf as [Hs Hws Hlen Hoff].
  destruct (span_Ok t_span rw Hwf Hi) as (sp' & Hspan' & Hsp).
  rewrite Hspan in Hspan'. injection Hspan' as <-.
  destruct (Add_eq t_span t_now v rw sp Hwf Hi Hspan Hsp) as (b & Hb & Hadd).
  destruct (Z.leb_spec sp 0) as [| _]; [lia |].
  cbn [advanced set_win set_offset set_lastTime win offset size
         window.buckets] in Hb, Hadd.
  set (slots := ring_slots_from 0 (Z.to_nat sp) (offset rw + 1) (size rw))
    in Hb, Hadd.
  set (bs1 := fst (visit_slots reset_visit slots (window.buckets (win rw)) tt))
    in Hb, Hadd.
  assert (Hrange : Forall (fun k => 0 <= k < Z.of_nat (length (window.buckets (win rw)))) slots).
  { rewrite Hlen. apply ring_slots_from_range. lia. }
  assert (Hlook : forall j : nat,
    bs1 !! j = if decide (Z.of_nat j ∈ slots) then Some Bucket.new
               else window.buckets (win rw) !! j).
  { intros j. by apply visit_reset_lookup. }
  assert (Hlen1 : length bs1 = length (window.buckets (win rw))).
  { apply visit_slots_length. }
  pose proof (Z.mod_pos_bound (offset rw + sp) (size rw) ltac:(lia)) as Ho'.
  assert (Hin : (offset rw + sp) mod size rw ∈ slots).
  { apply ring_slots_from_elem. exists (Z.to_nat (sp - 1)).
    split; [lia |]. f_equal. lia. }
  assert (Hbnew : b = Bucket.new).
  { rewrite Hlook, Z2Nat.id, decide_True in Hb by (done || lia). congruence. }
  subst b. eexists. split; [exact Hadd |].
  cbn [set_win win offset window.buckets].
  split; [done |]. split; [| split].
  - rewrite list_lookup_insert_eq by lia. vm_compute add64. done.
  - intros i Hi'.
    pose proof (Z.mod_pos_bound (offset rw + 1 + i) (size rw) ltac:(lia)) as Hk.
    rewrite list_lookup_insert_ne.
    + rewrite Hlook, Z2Nat.id, decide_True; [done | | lia].
      apply ring_slots_from_elem. exists (Z.to_nat i). split; [lia |].
      f_equal. lia.
    + intros Heq. apply Z2Nat.inj in Heq; [| lia | lia].
      replace (offset rw + sp) with (offset rw + 1 + (sp - 1)) in Heq by lia.
      apply mod_inj_window in Heq; lia.
  - intros j Hj.
    rewrite list_lookup_insert_ne.
    + rewrite Hlook, decide_False; [done |].
      intros (i & Hi' & Heq)%ring_slots_from_elem.
      apply (Hj (Z.of_nat i)); [lia | done].
    + intros <-. apply (Hj (sp - 1)); [lia |]. rewrite Z2Nat.id by lia.
      f_equal. lia.
Qed.

Lemma Add_advance_witness :
  exists rw',
    Add (25 * Millisecond) (25 * Millisecond) 4%float after_B = Ok rw' /\
    offset rw' = 2 /\
    window.buckets (win rw') !! 2%nat = Some (mkBucket (0 + 4)%float 1).
Proof.
  destruct (Add_advance (25 * Millisecond) (25 * Millisecond) 4%float
              after_B 1)
    as (rw' & Hadd & Hoff & Hb & _).
  - constructor; by vm_compute.
  - discriminate.
  - by vm_compute.
  - lia.
  - exists rw'. split; [exact Hadd |]. split; [exact Hoff |].
    rewrite Hoff in Hb. exact Hb.
Defined.

Lemma add_all_Count vs :
  forall b,
    0 <= Count b -> Count b + Z.of_nat (length vs) < 2 ^ 63 ->
    Count (add_all vs b) = Count b + Z.of_nat (length vs).
Proof.
  induction vs as [| v vs IH]; intros b H0 Hmax; simpl in *; [lia |].
  rewrite IH; simpl.
  - rewrite add64_id by (unfold int64_range; lia). lia.
  - rewrite add64_id by (unfold int64_range; lia). lia.
  - rewrite add64_id by (unfold int64_range; lia). lia.
Qed.

Lemma run_same_slice cs :
  forall rw b,
    wf rw -> interval rw <> 0 ->
    Forall (same_slice_add rw) cs ->
    window.buckets (win rw) !! Z.to_nat (offset rw) = Some b ->
    run cs rw =
    Ok (set_win
          (window.mk
             (<[Z.to_nat (offset rw) := add_all (added_values cs) b]>
                (window.buckets (win rw)))
             (size rw)) rw).
Proof.
  induction cs as [| c cs IH]; intros rw b Hwf Hi Hcs Hb.
  - simpl. rewrite list_insert_id by done.
    destruct Hwf as [_ Hws _ _]. destruct rw as [s [bs ws] ? ? ? ?].
    simpl in *. by subst ws.
  - apply Forall_cons in Hcs as [Hc Hcs].
    destruct c as [t_span t_now v | now fn]; [| done]. simpl in Hc.
    pose proof Hwf as [Hs Hws Hlen Hoff].
    destruct (Add_eq t_span t_now v rw 0 Hwf Hi Hc ltac:(lia))
      as (b0 & Hb0 & Hadd).
    simpl in Hb0, Hadd. rewrite Hb in Hb0. injection Hb0 as <-.
    cbn [run do_call]. rewrite Hadd. cbn [bind].
    erewrite IH; cbn [set_win win offset size interval window.buckets].
    + rewrite list_insert_insert_eq. done.
    + constructor; simpl; [done | done | by rewrite length_insert | done].
    + done.
    + eapply Forall_impl; [exact Hcs |]. intros [] H; exact H.
    + apply list_lookup_insert_eq. lia.
Qed.

(** X3: [Add]s that all fall in the current slice pile up in the bucket
    under the cursor: after them the controller is the one given, with that
    bucket holding the float sum of the old sum and the values in call
    order, and (short of 2^63) the old count plus the number of calls. *)
Theorem Adds_accumulate cs rw b :
  wf rw -> interval rw <> 0 ->
  Forall (same_slice_add rw) cs ->
  window.buckets (win rw) !! Z.to_nat (offset rw) = Some b ->
  0 <= Count b -> Count b + Z.of_nat (length cs) < 2 ^ 63 ->
  run cs rw =
    Ok (set_win
          (window.mk
             (<[Z.to_nat (offset rw) := add_all (added_values cs) b]>
                (window.buckets (win rw)))
             (size rw)) rw) /\
  Sum (add_all (added_values cs) b) =
    fold_left PrimFloat.add (added_values cs) (Sum b) /\
  Count (add_all (added_values cs) b) = Count b + Z.of_nat (length cs).
Proof.
  intros Hwf Hi Hcs Hb H0 Hmax.
  assert (Hlen : length (added_values cs) = length cs).
  { clear -Hcs. induction Hcs as [| c cs Hc _ IH]; [done |].
    destruct c; [| done]. simpl. by rewrite IH. }
  split; [by apply run_same_slice |]. split.
  - generalize (added_values cs) b. clear.
    intros vs. induction vs as [| v vs IH]; intros b; simpl; [done |].
    by rewrite IH.
  - rewrite add_all_Count by (rewrite ?Hlen; done). by rewrite Hlen.
Qed.

Lemma Adds_accumulate_witness :
  run [CallAdd (12 * Millisecond) (12 * Millisecond) 4%float;
       CallAdd (19 * Millisecond) (19 * Millisecond) 8%float] after_B =
  Ok (set_win
        (window.mk [mkBucket 1 1; mkBucket 14 3; Bucket.new] 3) after_B).
Proof.
  apply (Adds_accumulate
           [CallAdd (12 * Millisecond) (12 * Millisecond) 4%float;
            CallAdd (19 * Millisecond) (19 * Millisecond) 8%float]
           after_B (mkBucket 2 1)).
  - constructor; by vm_compute.
  - discriminate.
  - repeat constructor.
  - reflexivity.
  - by vm_compute.
  - by vm_compute.
Defined.

(** The span right after an [Add], at the reading the [Add] last used. *)
Lemma Add_span_after t_span t_now v rw :
  wf rw -> interval rw <> 0 ->
  0 <= lastTime rw < 2 ^ 63 -> 0 <= t_now < 2 ^ 63 ->
  exists sp rw',
    span t_span rw = Ok sp /\
    Add t_span t_now v rw = Ok rw' /\
    (0 < sp -> span t_now rw' = Ok 0) /\
    (sp = 0 -> span t_span rw' = Ok 0).
Proof.
  intros Hwf Hi Hlast Hnow.
  destruct (span_Ok t_span rw Hwf Hi) as (sp & Hspan & Hsp).
  destruct (Add_lastTime t_span t_now v rw sp Hwf Hi Hspan)
    as (rw' & Hadd & Hwf' & Hi' & Hl).
  destruct (Add_wf t_span t_now v rw Hwf Hi) as (rw2 & Hadd2 & _ & Hs' & _).
  rewrite Hadd in Hadd2. injection Hadd2 as <-.
  pose proof Hwf as [Hs _ _ _].
  exists sp, rw'. split; [done |]. split; [done |]. split.
  - intros Hpos. destruct (Z.leb_spec sp 0); [lia |].
    destruct (realign_arith t_now (lastTime rw) (interval rw) Hnow Hlast Hi)
      as (Hsub & Hrange & _).
    apply span_small; [by rewrite Hi' | lia |].
    rewrite Hl, Hsub, Hi'. rewrite sub64_id by (unfold int64_range; lia).
    replace (t_now - (t_now - Z.rem (t_now - lastTime rw) (interval rw)))
      with (Z.rem (t_now - lastTime rw) (interval rw)) by lia.
    by apply Z.rem_bound_abs.
  - intros ->. simpl in Hl.
    unfold span in *. by rewrite Hl, Hi', Hs'.
Qed.

(** X4: an [Add] brings the controller up to date.  With non-negative clock
    readings and any non-zero interval, the span measured right after the
    [Add], at the reading the [Add] last used, is 0 (the realigned
    [lastTime] is less than one interval away from that reading, also when
    the clock had gone backward), so a [Reduce] at that reading visits all
    [size] buckets, or [size - 1] with [ignoreCurrent]. *)
Theorem Add_up_to_date t_span t_now v rw :
  wf rw -> interval rw <> 0 ->
  0 <= lastTime rw < 2 ^ 63 -> 0 <= t_now < 2 ^ 63 ->
  exists sp rw',
    span t_span rw = Ok sp /\
    Add t_span t_now v rw = Ok rw' /\
    let t := if 0 <? sp then t_now else t_span in
    span t rw' = Ok 0 /\
    visited t rw' = Ok (if ignoreCurrent rw then size rw - 1 else size rw).
Proof.
  intros Hwf Hi Hlast Hnow.
  destruct (Add_span_after t_span t_now v rw Hwf Hi Hlast Hnow)
    as (sp & rw' & Hspan & Hadd & Hpos & Hzero).
  destruct (Add_wf t_span t_now v rw Hwf Hi)
    as (rw2 & Hadd2 & Hwf' & Hs' & _ & Hc').
  rewrite Hadd in Hadd2. injection Hadd2 as <-.
  destruct (span_Ok t_span rw Hwf Hi) as (sp' & Hspan' & Hsp).
  rewrite Hspan in Hspan'. injection Hspan' as <-.
  pose proof Hwf' as [Hsz _ _ _].
  exists sp, rw'. split; [done |]. split; [done |]. cbv zeta.
  assert (H0 : span (if 0 <? sp then t_now else t_span) rw' = Ok 0).
  { destruct (Z.ltb_spec 0 sp); [by apply Hpos | apply Hzero; lia]. }
  split; [done |].
  rewrite (visited_eq _ rw' 0 Hwf' H0) by lia.
  unfold validCount. rewrite Hc', Hs'. simpl.
  destruct (ignoreCurrent rw); f_equal; lia.
Qed.

Lemma Add_up_to_date_witness :
  exists sp rw',
    span 75 late_window = Ok sp /\
    Add 75 75 1%float late_window = Ok rw' /\
    span (if 0 <? sp then 75 else 75) rw' = Ok 0.
Proof.
  destruct (Add_up_to_date 75 75 1%float late_window)
    as (sp & rw' & Hspan & Hadd & Hzero & _).
  - constructor; by vm_compute.
  - discriminate.
  - by vm_compute.
  - by vm_compute.
  - exists sp, rw'. split; [exact Hspan |]. split; [exact Hadd | exact Hzero].
Defined.

(** ** [span] and [Reduce] as time passes *)

Lemma validCount_antitone s1 s2 rw :
  0 <= s1 <= s2 -> validCount s2 rw <= validCount s1 rw.
Proof.
  intros H. unfold validCount.
  destruct (Z.eqb_spec s1 0), (Z.eqb_spec s2 0), (ignoreCurrent rw);
    simpl; lia.
Qed.

(** X5: while nothing is written and the clock does not go back, staleness
    only grows: for [lastTime <= t1 <= t2] and a positive interval the span
    at [t2] is at least the span at [t1], and a [Reduce] at [t2] visits at
    most as many buckets as a [Reduce] at [t1]. *)
Theorem span_monotone t1 t2 rw :
  wf rw -> 0 < interval rw ->
  lastTime rw <= t1 -> t1 <= t2 -> int64_range (t2 - lastTime rw) ->
  exists s1 s2 n1 n2,
    span t1 rw = Ok s1 /\ span t2 rw = Ok s2 /\ s1 <= s2 /\
    visited t1 rw = Ok n1 /\ visited t2 rw = Ok n2 /\ n2 <= n1.
Proof.
  intros Hwf Hi H1 H2 Hr. pose proof Hwf as [Hs _ _ _].
  assert (Hi' : interval rw <> 0) by lia.
  assert (Hsz : int64_range (size rw)) by (unfold int64_range; lia).
  unfold int64_range in Hr.
  pose proof (span_quot t1 rw Hi' Hsz) as Hs1.
  pose proof (span_quot t2 rw Hi' Hsz) as Hs2.
  pose proof (span_quot_spec_range t1 rw ltac:(lia)) as Hr1.
  pose proof (span_quot_spec_range t2 rw ltac:(lia)) as Hr2.
  assert (Hle : span_quot_spec t1 rw <= span_quot_spec t2 rw).
  { unfold span_quot_spec.
    rewrite !sub64_id by (unfold int64_range; lia).
    pose proof (Z.quot_le_mono (t1 - lastTime rw) (t2 - lastTime rw)
                  (interval rw) Hi ltac:(lia)) as Hq.
    pose proof (Z.quot_pos (t1 - lastTime rw) (interval rw) ltac:(lia) Hi).
    destruct (Z.leb_spec 0 (Z.quot (t1 - lastTime rw) (interval rw)));
      destruct (Z.ltb_spec (Z.quot (t1 - lastTime rw) (interval rw)) (size rw));
      destruct (Z.leb_spec 0 (Z.quot (t2 - lastTime rw) (interval rw)));
      destruct (Z.ltb_spec (Z.quot (t2 - lastTime rw) (interval rw)) (size rw));
      simpl; lia. }
  exists (span_quot_spec t1 rw), (span_quot_spec t2 rw),
    (validCount (span_quot_spec t1 rw) rw),
    (validCount (span_quot_spec t2 rw) rw).
  split; [done |]. split; [done |]. split; [done |].
  split; [by apply visited_eq |]. split; [by apply visited_eq |].
  apply validCount_antitone. lia.
Qed.

Lemma span_monotone_witness :
  exists s1 s2 n1 n2,
    span (12 * Millisecond) after_B = Ok s1 /\
    span (31 * Millisecond) after_B = Ok s2 /\ s1 <= s2 /\
    visited (12 * Millisecond) after_B = Ok n1 /\
    visited (31 * Millisecond) after_B = Ok n2 /\ n2 <= n1.
Proof.
  apply (span_monotone (12 * Millisecond) (31 * Millisecond) after_B).
  - constructor; by vm_compute.
  - by vm_compute.
  - by vm_compute.
  - by vm_compute.
  - by vm_compute.
Defined.

(** X6: once the whole window has expired, [Reduce] visits nothing.  With a
    positive interval, if [size] or more whole intervals have passed since
    [lastTime], or the clock reads a whole interval or more before
    [lastTime], [Reduce] returns the controller and the visitor's state
    untouched, whatever the visitor. *)
Theorem Reduce_expired {A : Type} (fn : Bucket -> A -> Bucket * A) now rw a :
  wf rw -> 0 < interval rw -> int64_range (now - lastTime rw) ->
  size rw * interval rw <= now - lastTime rw \/
  now - lastTime rw <= - interval rw ->
  span now rw = Ok (size rw) /\ Reduce now fn rw a = Ok (rw, a).
Proof.
  intros Hwf Hi Hr Hexp. pose proof Hwf as [Hs Hws _ _].
  assert (Hspan : span now rw = Ok (size rw)).
  { rewrite span_quot by (lia || unfold int64_range; lia).
    unfold span_quot_spec. rewrite sub64_id by done.
    set (q := Z.quot (now - lastTime rw) (interval rw)).
    assert (Hq : size rw <= q \/ q < 0).
    { destruct Hexp as [Hlate | Hback].
      - left. apply Z.quot_le_lower_bound; lia.
      - right. unfold q.
        replace (now - lastTime rw) with (- (lastTime rw - now)) by lia.
        rewrite Z.quot_opp_l by lia.
        assert (1 <= Z.quot (lastTime rw - now) (interval rw));
          [apply Z.quot_le_lower_bound; lia | lia]. }
    destruct (Z.leb_spec 0 q); destruct (Z.ltb_spec q (size rw));
      simpl; (done || lia). }
  split; [done |].
  rewrite (Reduce_eq fn now rw a (size rw) Hwf Hspan ltac:(lia)).
  unfold validCount, ring_slots.
  destruct (Z.eqb_spec (size rw) 0); [lia |]. simpl.
  rewrite Z.sub_diag. simpl.
  destruct rw as [s [bs ws] ? ? ? ?]. simpl in *. by subst ws.
Qed.

Lemma Reduce_expired_witness :
  Reduce (45 * Millisecond) tally after_B (0%float, 0, 0) =
  Ok (after_B, (0%float, 0, 0)).
Proof.
  apply (Reduce_expired tally (45 * Millisecond) after_B).
  - constructor; by vm_compute.
  - by vm_compute.
  - by vm_compute.
  - left. by vm_compute.
Defined.

Lemma visit_slots_collect n :
  forall (i0 : nat) (start : nat) bs seen,
    (i0 + n <= length bs)%nat ->
    visit_slots collect
      (ring_slots_from i0 n (Z.of_nat start) (Z.of_nat (length bs))) bs seen =
    (bs, seen ++ take n (drop i0 (rotate start bs))).
Proof.
  induction n as [| n IH]; intros i0 start bs seen Hn.
  - simpl. by rewrite app_nil_r.
  - cbn [ring_slots_from seq fmap list_fmap visit_slots].
    assert (Hrot : rotate start bs !! i0 =
                   bs !! Z.to_nat ((Z.of_nat start + Z.of_nat i0)
                                     mod Z.of_nat (length bs))).
    { rewrite lookup_rotate_r by lia. done. }
    destruct (lookup_lt_is_Some_2 (rotate start bs) i0) as [b Hb];
      [rewrite length_rotate; lia |].
    rewrite <- Hrot, Hb. cbn [collect].
    rewrite Hrot in Hb. rewrite list_insert_id by done.
    fold (ring_slots_from (S i0) n (Z.of_nat start) (Z.of_nat (length bs))).
    rewrite IH by lia. rewrite <- Hrot in Hb.
    rewrite (drop_S _ _ _ Hb). cbn [take]. by rewrite <- app_assoc.
Qed.

Lemma Reduce_collect now rw sp :
  wf rw -> span now rw = Ok sp -> 0 <= sp <= size rw ->
  Reduce now collect rw [] =
  Ok (rw, take (Z.to_nat (validCount sp rw))
            (rotate (Z.to_nat ((offset rw + sp + 1) mod size rw))
               (window.buckets (win rw)))).
Proof.
  intros Hwf Hspan Hsp. pose proof Hwf as [Hs Hws Hlen Hoff].
  pose proof (validCount_range sp rw ltac:(lia) Hsp) as Hvc.
  pose proof (Z.mod_pos_bound (offset rw + sp + 1) (size rw) ltac:(lia)) as Hst.
  rewrite (Reduce_eq collect now rw [] sp Hwf Hspan Hsp).
  unfold ring_slots.
  set (start := Z.to_nat ((offset rw + sp + 1) mod size rw)).
  replace ((offset rw + sp + 1) mod size rw) with (Z.of_nat start)
    by (unfold start; lia).
  rewrite <- Hlen at 1.
  rewrite visit_slots_collect by lia. simpl.
  destruct rw as [s [bs' ws] ? ? ? ?]. simpl in *. by subst ws.
Qed.

Lemma rotate_ring_lookup (start : Z) (bs : list Bucket) (i : nat) :
  0 <= start -> (i < length bs)%nat ->
  rotate (Z.to_nat (start mod Z.of_nat (length bs))) bs !! i =
  bs !! Z.to_nat ((start + Z.of_nat i) mod Z.of_nat (length bs)).
Proof.
  intros Hstart Hi. rewrite lookup_rotate_r by done.
  unfold rotate_nat_add.
  pose proof (Z.mod_pos_bound start (Z.of_nat (length bs)) ltac:(lia)).
  rewrite Z2Nat.id by lia. by rewrite Zplus_mod_idemp_l.
Qed.

(** X7: [Reduce] hands the visitor the buckets in ring order, oldest first:
    what a recording visitor sees is the first [count] buckets of the ring
    rotated to start at [(offset + span + 1) mod size].  Unless the current
    bucket is being ignored, the last bucket visited is the one under the
    cursor; when it is ignored (span 0 with [ignoreCurrent]), the buckets
    seen followed by the one under the cursor are the whole rotated ring. *)
Theorem Reduce_ring_order now rw :
  wf rw -> interval rw <> 0 ->
  exists sp seen b,
    span now rw = Ok sp /\
    window.buckets (win rw) !! Z.to_nat (offset rw) = Some b /\
    Reduce now collect rw [] = Ok (rw, seen) /\
    seen = take (Z.to_nat (validCount sp rw))
             (rotate (Z.to_nat ((offset rw + sp + 1) mod size rw))
                (window.buckets (win rw))) /\
    (sp < size rw -> (sp =? 0) && ignoreCurrent rw = false ->
     last seen = Some b) /\
    ((sp =? 0) && ignoreCurrent rw = true ->
     seen ++ [b] =
     rotate (Z.to_nat ((offset rw + 1) mod size rw)) (window.buckets (win rw))).
Proof.
  intros Hwf Hi. pose proof Hwf as [Hs Hws Hlen Hoff].
  destruct (span_Ok now rw Hwf Hi) as (sp & Hspan & Hsp).
  pose proof (validCount_range sp rw ltac:(lia) Hsp) as Hvc.
  pose proof (Z.mod_pos_bound (offset rw + sp + 1) (size rw) ltac:(lia)) as Hst.
  destruct (lookup_lt_is_Some_2 (window.buckets (win rw))
              (Z.to_nat (offset rw))) as [b Hb]; [lia |].
  set (start := Z.to_nat ((offset rw + sp + 1) mod size rw)) in *.
  set (bs := window.buckets (win rw)) in *.
  assert (Hred : Reduce now collect rw [] =
                 Ok (rw, take (Z.to_nat (validCount sp rw)) (rotate start bs)))
    by (by apply Reduce_collect).
  assert (Hrot : forall i : nat, (i < length bs)%nat ->
            rotate start bs !! i =
            bs !! Z.to_nat ((offset rw + sp + 1 + Z.of_nat i) mod size rw)).
  { intros i Hi'. unfold start. rewrite <- Hlen.
    apply rotate_ring_lookup; [lia | done]. }
  exists sp, (take (Z.to_nat (validCount sp rw)) (rotate start bs)), b.
  split; [done |]. split; [done |]. split; [done |]. split; [done |].
  split.
  - intros Hlt Hcur.
    assert (Hc : validCount sp rw = size rw - sp)
      by (unfold validCount; by rewrite Hcur).
    rewrite last_lookup, length_take, length_rotate.
    rewrite lookup_take_lt by lia.
    rewrite Hrot by lia. rewrite <- Hb. f_equal. f_equal.
    replace (offset rw + sp + 1 +
             Z.of_nat (Init.Nat.pred (Z.to_nat (validCount sp rw)
                                        `min` length bs)))
      with (offset rw + 1 * size rw) by lia.
    rewrite Z.mod_add by lia. apply Z.mod_small. lia.
  - intros Hcur. apply andb_true_iff in Hcur as [Hsp0%Z.eqb_eq Hig].
    subst sp.
    assert (Hc : validCount 0 rw = size rw - 1)
      by (unfold validCount; by rewrite Hig).
    rewrite Hc. replace (offset rw + 1) with (offset rw + 0 + 1) by lia.
    fold start.
    assert (Hlast : rotate start bs !! Z.to_nat (size rw - 1) = Some b).
    { rewrite Hrot by lia. rewrite <- Hb. f_equal. f_equal.
      replace (offset rw + 0 + 1 + Z.of_nat (Z.to_nat (size rw - 1)))
        with (offset rw + 1 * size rw) by lia.
      rewrite Z.mod_add by lia. apply Z.mod_small. lia. }
    rewrite <- (take_S_r _ _ _ Hlast).
    apply take_ge. rewrite length_rotate. lia.
Qed.

Lemma Reduce_ring_order_witness :
  exists sp seen b,
    span (25 * Millisecond) after_B = Ok sp /\
    Reduce (25 * Millisecond) collect after_B [] = Ok (after_B, seen) /\
    (sp < 3 -> (sp =? 0) && false = false -> last seen = Some b).
Proof.
  destruct (Reduce_ring_order (25 * Millisecond) after_B)
    as (sp & seen & b & Hspan & _ & Hred & _ & Hlast & _).
  - constructor; by vm_compute.
  - discriminate.
  - exists sp, seen, b. split; [exact Hspan |]. split; [exact Hred |].
    exact Hlast.
Defined.

(** ** The ring store on its own *)

(** X8: [window.add] and [window.resetBucket] index the ring with Go's
    remainder, which is negative for a negative offset that is not a
    multiple of [size].  On a window whose [size] is the length of its
    ring: an empty window makes both panic with a division by zero; a
    negative remainder makes both panic with an index out of range;
    otherwise both succeed and change the bucket at [offset % size] only. *)
Theorem window_update_edges offset0 v w :
  Z.of_nat (length (window.buckets w)) = window.size w ->
  (window.size w = 0 ->
   window.add offset0 v w = Panic DivideByZero /\
   window.resetBucket offset0 w = Panic DivideByZero) /\
  (window.size w <> 0 -> Z.rem offset0 (window.size w) < 0 ->
   window.add offset0 v w = Panic IndexOutOfRange /\
   window.resetBucket offset0 w = Panic IndexOutOfRange) /\
  (window.size w <> 0 -> 0 <= Z.rem offset0 (window.size w) ->
   exists b,
     window.buckets w !! Z.to_nat (Z.rem offset0 (window.size w)) = Some b /\
     window.add offset0 v w =
       Ok (window.mk
             (<[Z.to_nat (Z.rem offset0 (window.size w)) :=
                  mkBucket (Sum b + v)%float (add64 (Count b) 1)]>
                (window.buckets w)) (window.size w)) /\
     window.resetBucket offset0 w =
       Ok (window.mk
             (<[Z.to_nat (Z.rem offset0 (window.size w)) := mkBucket 0 0]>
                (window.buckets w)) (window.size w))) /\
  (Z.rem offset0 (window.size w) < 0 <->
   offset0 < 0 /\ Z.rem offset0 (window.size w) <> 0).
Proof.
  intros Hlen. unfold window.add, window.resetBucket, window.update, rem64.
  split; [| split; [| split]].
  - intros ->. done.
  - intros Hne Hneg. destruct (Z.eqb_spec (window.size w) 0); [done |].
    cbn [bind]. unfold index.
    destruct (Z.leb_spec 0 (Z.rem offset0 (window.size w))); [lia | done].
  - intros Hne Hpos. destruct (Z.eqb_spec (window.size w) 0); [done |].
    cbn [bind].
    pose proof (Z.rem_bound_abs offset0 (window.size w) Hne) as Hb.
    destruct (index_Ok (window.buckets w) (Z.rem offset0 (window.size w)))
      as (b & -> & Hlook); [lia |].
    exists b. done.
  - split.
    + intros Hneg. split; [| lia].
      destruct (Z.lt_ge_cases offset0 0) as [| Hge]; [done |].
      pose proof (Z.rem_nonneg offset0 (window.size w)) as Hnn.
      destruct (Z.eq_dec (window.size w) 0) as [H0 | Hne].
      * rewrite H0 in Hneg.
        replace (Z.rem offset0 0) with offset0 in Hneg by (by destruct offset0).
        lia.
      * specialize (Hnn Hne Hge). lia.
    + intros [Hneg Hnz].
      destruct (Z.eq_dec (window.size w) 0) as [H0 | Hne].
      * rewrite H0.
        replace (Z.rem offset0 0) with offset0 by (by destruct offset0). done.
      * pose proof (Z.rem_nonpos offset0 (window.size w) Hne ltac:(lia)). lia.
Qed.

Lemma window_update_edges_witness :
  window.add (-1) 1%float (window.mk (replicate 3%nat Bucket.new) 3) =
    Panic IndexOutOfRange /\
  window.add (-3) 1%float (window.mk (replicate 3%nat Bucket.new) 3) =
    Ok (window.mk [mkBucket 1 1; Bucket.new; Bucket.new] 3) /\
  window.resetBucket 7 (window.mk [] 0) = Panic DivideByZero.
Proof.
  split; [| split].
  - apply (window_update_edges (-1) 1%float
             (window.mk (replicate 3%nat Bucket.new) 3));
      [reflexivity | discriminate | by vm_compute].
  - destruct (window_update_edges (-3) 1%float
                (window.mk (replicate 3%nat Bucket.new) 3))
      as (_ & _ & Hok & _); [reflexivity |].
    destruct Hok as (b & Hb & Hadd & _); [discriminate | by vm_compute |].
    injection Hb as <-. exact Hadd.
  - apply (window_update_edges 7 1%float (window.mk [] 0));
      reflexivity.
Defined.

(** ** Whole histories *)

(** X9: a controller built with [size] from 1 up to the longest slice
    [make] accepts, a non-zero interval and configuring options never
    panics afterwards: every history
    of [Add] and [Reduce] calls, with arbitrary clock readings and visitors
    that may store into the buckets they are handed, runs to the end, and
    leaves [size], [interval], [ignoreCurrent] and the length of the ring as
    built, with the cursor inside the ring. *)
Theorem operations_total size0 interval0 now opts cs :
  1 <= size0 <= max_slice_len -> interval0 <> 0 -> Forall config_only opts ->
  exists rw0 rw,
    NewRollingWindow size0 interval0 now opts = Ok rw0 /\
    run cs rw0 = Ok rw /\
    size rw = size0 /\ interval rw = interval0 /\
    ignoreCurrent rw = ignoreCurrent rw0 /\
    window.size (win rw) = size0 /\
    Z.of_nat (length (window.buckets (win rw))) = size0 /\
    0 <= offset rw < size0.
Proof.
  intros Hs Hi Hopts.
  destruct (NewRollingWindow_Ok size0 interval0 now opts Hs Hopts)
    as [flag Hnew].
  destruct (NewRollingWindow_wf size0 interval0 now opts _ Hs Hopts Hnew)
    as (Hwf0 & Hi0 & _).
  set (rw0 := mkRollingWindow size0
                (window.mk (replicate (Z.to_nat size0) Bucket.new) size0)
                interval0 0 flag now) in *.
  assert (Hi0' : interval rw0 <> 0) by done.
  destruct (run_wf cs rw0 Hwf0 Hi0') as (rw & Hrun & Hwf & Hsz & Hint & Hflag).
  destruct Hwf as [_ Hws Hlen Hoff].
  exists rw0, rw. split; [done |]. split; [done |].
  split; [done |]. split; [done |]. split; [done |].
  split; [rewrite Hws; exact Hsz |]. split; [rewrite Hlen; exact Hsz |].
  rewrite Hsz in Hoff. exact Hoff.
Qed.

Lemma operations_total_witness :
  exists rw0 rw,
    NewRollingWindow 3 10 100 [IgnoreCurrentBucket] = Ok rw0 /\
    run [CallAdd 75 75 1%float; CallReduce 130 (Bucket.add 2%float);
         CallAdd 500 501 3%float] rw0 = Ok rw /\
    0 <= offset rw < 3.
Proof.
  destruct (operations_total 3 10 100 [IgnoreCurrentBucket]
              [CallAdd 75 75 1%float; CallReduce 130 (Bucket.add 2%float);
               CallAdd 500 501 3%float])
    as (rw0 & rw & Hnew & Hrun & _ & _ & _ & _ & _ & Hoff).
  - by vm_compute.
  - discriminate.
  - repeat constructor.
  - exists rw0, rw. split; [exact Hnew |]. split; [exact Hrun | exact Hoff].
Defined.

(** ** What [Reduce] leaves alone *)

(** X10: whatever the visitor stores, [Reduce] changes nothing but the
    contents of the buckets it visits: the controller returned has the same
    fields and a ring of the same length, every bucket outside the visited
    slots is as it was, and in particular the [sp] stale buckets that follow
    the cursor are never handed to the visitor. *)
Theorem Reduce_frame {A : Type} (fn : Bucket -> A -> Bucket * A) now rw a :
  wf rw -> interval rw <> 0 ->
  exists sp rw' a',
    span now rw = Ok sp /\
    Reduce now fn rw a = Ok (rw', a') /\
    rw' = set_win (win rw') rw /\
    window.size (win rw') = size rw /\
    length (window.buckets (win rw')) = length (window.buckets (win rw)) /\
    (forall j : nat,
       (forall i, 0 <= i < validCount sp rw ->
                  Z.of_nat j <> (offset rw + sp + 1 + i) mod size rw) ->
       window.buckets (win rw') !! j = window.buckets (win rw) !! j) /\
    (forall i, 1 <= i <= sp ->
       window.buckets (win rw') !! Z.to_nat ((offset rw + i) mod size rw) =
       window.buckets (win rw) !! Z.to_nat ((offset rw + i) mod size rw)).
Proof.
  intros Hwf Hi. pose proof Hwf as [Hs Hws Hlen Hoff].
  destruct (span_Ok now rw Hwf Hi) as (sp & Hspan & Hsp).
  pose proof (validCount_range sp rw ltac:(lia) Hsp) as Hvc.
  pose proof (Reduce_eq fn now rw a sp Hwf Hspan Hsp) as Hred.
  set (slots := ring_slots ((offset rw + sp + 1) mod size rw)
                  (validCount sp rw) (size rw)) in Hred.
  pose proof (visit_slots_length fn slots (window.buckets (win rw)) a) as Hl.
  assert (Hframe : forall j : nat,
    (forall i, 0 <= i < validCount sp rw ->
               Z.of_nat j <> (offset rw + sp + 1 + i) mod size rw) ->
    fst (visit_slots fn slots (window.buckets (win rw)) a) !! j =
    window.buckets (win rw) !! j).
  { intros j Hj. apply visit_slots_frame.
    - eapply Forall_impl; [apply ring_slots_from_range; lia |].
      simpl. intros. lia.
    - intros (i & Hi' & Heq)%ring_slots_from_elem.
      rewrite Zplus_mod_idemp_l in Heq.
      apply (Hj (Z.of_nat i)); [lia | done]. }
  destruct (visit_slots fn slots (window.buckets (win rw)) a) as [bs a'].
  simpl in Hl, Hframe.
  exists sp, (set_win (window.mk bs (size rw)) rw), a'.
  split; [done |]. split; [done |]. split; [done |]. split; [done |].
  split; [done |]. split; [done |].
  intros i Hi'. cbn [set_win win window.buckets].
  pose proof (Z.mod_pos_bound (offset rw + i) (size rw) ltac:(lia)) as Hk.
  apply Hframe. intros i' Hi''. rewrite Z2Nat.id by lia. intros Heq.
  assert (Hvc' : validCount sp rw <= size rw - sp).
  { unfold validCount.
    destruct (Z.eqb_spec sp 0), (ignoreCurrent rw); simpl; lia. }
  replace (offset rw + i) with (offset rw + 1 + (i - 1)) in Heq by lia.
  replace (offset rw + sp + 1 + i') with (offset rw + 1 + (sp + i')) in Heq
    by lia.
  apply mod_inj_window in Heq; lia.
Qed.

Lemma Reduce_frame_witness :
  exists sp rw' u,
    span (25 * Millisecond) after_B = Ok sp /\
    Reduce (25 * Millisecond) (store_only Bucket.reset) after_B tt =
      Ok (rw', u) /\
    (1 <= 1 <= sp ->
     window.buckets (win rw') !! 2%nat = window.buckets (win after_B) !! 2%nat).
Proof.
  destruct (Reduce_frame (store_only Bucket.reset) (25 * Millisecond)
              after_B tt)
    as (sp & rw' & u & Hspan & Hred & _ & _ & _ & _ & Hstale).
  - constructor; by vm_compute.
  - discriminate.
  - exists sp, rw', u. split; [exact Hspan |]. split; [exact Hred |].
    exact (Hstale 1).
Defined.

(** ** A fresh controller, and a value just written *)

Lemma fold_IgnoreCurrentBucket n rw :
  fold_left (fun rw opt => opt rw) (replicate n IgnoreCurrentBucket) rw =
  set_ignoreCurrent (negb (Nat.eqb n 0) || ignoreCurrent rw) rw.
Proof.
  revert rw. induction n as [| n IH]; intros rw; simpl.
  - by destruct rw.
  - rewrite IH. unfold IgnoreCurrentBucket, set_ignoreCurrent. simpl.
    by rewrite orb_true_r.
Qed.

(** X11: the constructor starts the cursor at slot 0 with [lastTime] at the
    clock reading it took and [interval] as given; [ignoreCurrent] is set
    exactly when at least one [IgnoreCurrentBucket] option was passed.  A
    [Reduce] at that same reading finds span 0 and visits [size] empty
    buckets, or [size - 1] of them when the option was passed.  This holds
    for every [size] from 1 up to the longest slice [make] accepts. *)
Theorem fresh_controller size0 interval0 now n :
  1 <= size0 <= max_slice_len -> interval0 <> 0 ->
  exists rw,
    NewRollingWindow size0 interval0 now (replicate n IgnoreCurrentBucket) =
      Ok rw /\
    offset rw = 0 /\ lastTime rw = now /\ interval rw = interval0 /\
    ignoreCurrent rw = negb (Nat.eqb n 0) /\
    span now rw = Ok 0 /\
    Reduce now collect rw [] =
      Ok (rw, replicate
                (Z.to_nat (if Nat.eqb n 0 then size0 else size0 - 1))
                (mkBucket 0 0)).
Proof.
  intros Hs Hi. pose proof (max_slice_len_wf size0 ltac:(lia)) as Hs62.
  unfold NewRollingWindow. rewrite newWindow_cases.
  destruct (Z.ltb_spec size0 1); [lia |].
  destruct (Z.ltb_spec size0 0); [lia |].
  destruct (Z.ltb_spec max_slice_len size0); [lia |]. cbn [orb bind].
  rewrite fold_IgnoreCurrentBucket. cbn [ignoreCurrent]. rewrite orb_false_r.
  set (rw := set_ignoreCurrent _ _).
  assert (Hwf : wf rw).
  { constructor; simpl; [lia | done | | lia].
    rewrite length_replicate. lia. }
  assert (Hspan : span now rw = Ok 0).
  { apply span_small; simpl; [done | lia |].
    unfold sub64. rewrite Z.sub_diag. vm_compute wrap64. lia. }
  exists rw. split; [done |]. split; [done |]. split; [done |].
  split; [done |]. split; [done |]. split; [done |].
  rewrite (Reduce_collect now rw 0 Hwf Hspan ltac:(simpl; lia)).
  do 2 f_equal. cbn [rw set_ignoreCurrent win window.buckets].
  rewrite rotate_replicate, take_replicate.
  unfold validCount. cbn [rw set_ignoreCurrent size ignoreCurrent].
  simpl. fold Bucket.new. f_equal.
  destruct (Nat.eqb n 0); simpl; lia.
Qed.

Lemma fresh_controller_witness :
  exists rw,
    NewRollingWindow 3 10 100 (replicate 1%nat IgnoreCurrentBucket) = Ok rw /\
    ignoreCurrent rw = true /\
    Reduce 100 collect rw [] = Ok (rw, [mkBucket 0 0; mkBucket 0 0]).
Proof.
  destruct (fresh_controller 3 10 100 1)
    as (rw & Hnew & _ & _ & _ & Hflag & _ & Hred).
  - by vm_compute.
  - discriminate.
  - exists rw. split; [exact Hnew |]. split; [exact Hflag | exact Hred].
Defined.

Lemma rotate_after_cursor (bs : list Bucket) (o : Z) (b : Bucket) :
  0 <= o < Z.of_nat (length bs) ->
  bs !! Z.to_nat o = Some b ->
  rotate (Z.to_nat ((o + 1) mod Z.of_nat (length bs))) bs
    !! Init.Nat.pred (length bs) = Some b.
Proof.
  intros Ho Hb.
  rewrite rotate_ring_lookup by lia. rewrite <- Hb. f_equal. f_equal.
  replace (o + 1 + Z.of_nat (Init.Nat.pred (length bs)))
    with (o + 1 * Z.of_nat (length bs)) by lia.
  rewrite Z.mod_add by lia. apply Z.mod_small. lia.
Qed.

Lemma advanced_cursor_bucket sp t_now rw :
  wf rw -> 0 < sp <= size rw ->
  window.buckets (win (advanced sp t_now rw))
    !! Z.to_nat (offset (advanced sp t_now rw)) = Some Bucket.new.
Proof.
  intros [Hs Hws Hlen Hoff] Hsp.
  cbn [advanced set_win set_offset set_lastTime win offset window.buckets].
  pose proof (Z.mod_pos_bound (offset rw + sp) (size rw) ltac:(lia)) as Ho'.
  rewrite visit_reset_lookup.
  2: { rewrite Hlen. apply ring_slots_from_range. lia. }
  rewrite Z2Nat.id by lia. rewrite decide_True; [done |].
  apply ring_slots_from_elem. exists (Z.to_nat (sp - 1)).
  split; [lia |]. f_equal. lia.
Qed.

(** X12: a value is visible to a [Reduce] made at the reading of the [Add]
    that wrote it.  With non-negative clock readings, let [sp] be the span
    of an [Add] at [t] and [b0] the bucket under the cursor before it.
    After the [Add] the bucket under the cursor is the written bucket: the
    value added to [b0] when [sp = 0], and to an empty bucket when the
    cursor advanced.  A [Reduce] at [t] without [ignoreCurrent] visits all
    [size] buckets and the written bucket last; with [ignoreCurrent] it
    visits the other [size - 1] buckets only. *)
Theorem Add_then_Reduce t v rw :
  wf rw -> interval rw <> 0 ->
  0 <= lastTime rw < 2 ^ 63 -> 0 <= t < 2 ^ 63 ->
  exists sp b0 rw' seen,
    span t rw = Ok sp /\
    window.buckets (win rw) !! Z.to_nat (offset rw) = Some b0 /\
    Add t t v rw = Ok rw' /\
    let b := if 0 <? sp then mkBucket 0 0 else b0 in
    let written := mkBucket (Sum b + v)%float (add64 (Count b) 1) in
    window.buckets (win rw') !! Z.to_nat (offset rw') = Some written /\
    Reduce t collect rw' [] = Ok (rw', seen) /\
    (ignoreCurrent rw = false ->
     length seen = Z.to_nat (size rw) /\ last seen = Some written) /\
    (ignoreCurrent rw = true ->
     length seen = Z.to_nat (size rw - 1) /\
     seen ++ [written] =
     rotate (Z.to_nat ((offset rw' + 1) mod size rw))
       (window.buckets (win rw'))).
Proof.
  intros Hwf Hi Hlast Ht.
  destruct (Add_span_after t t v rw Hwf Hi Hlast Ht)
    as (sp & rw' & Hspan & Hadd & Hpos & Hzero).
  destruct (span_Ok t rw Hwf Hi) as (sp' & Hspan' & Hsp).
  rewrite Hspan in Hspan'. injection Hspan' as <-.
  assert (H0 : span t rw' = Ok 0).
  { destruct (Z.eq_dec sp 0); [by apply Hzero | apply Hpos; lia]. }
  destruct (Add_wf t t v rw Hwf Hi) as (rw2 & Hadd2 & Hwf' & Hs' & _ & Hc').
  rewrite Hadd in Hadd2. injection Hadd2 as <-.
  destruct (Add_eq t t v rw sp Hwf Hi Hspan Hsp) as (b & Hb & Hadd3).
  rewrite Hadd in Hadd3. injection Hadd3 as Hrw'.
  destruct (lookup_lt_is_Some_2 (window.buckets (win rw))
              (Z.to_nat (offset rw))) as [b0 Hb0].
  { destruct Hwf as [? _ ? ?]. lia. }
  assert (Hbpin : b = if 0 <? sp then mkBucket 0 0 else b0).
  { destruct (Z.ltb_spec 0 sp) as [Hgt | Hle].
    - destruct (Z.leb_spec sp 0) as [| _]; [lia |].
      rewrite advanced_cursor_bucket in Hb by (done || lia).
      by injection Hb as <-.
    - destruct (Z.leb_spec sp 0) as [_ |]; [| lia].
      rewrite Hb0 in Hb. by injection Hb as <-. }
  pose proof Hwf' as [Hsz Hws Hlen Hoff].
  assert (Hcur : window.buckets (win rw') !! Z.to_nat (offset rw') =
                 Some (Bucket.add v b)).
  { rewrite Hrw' at 1. cbn [set_win win window.buckets].
    rewrite Hrw' at 1. cbn [set_win offset].
    apply list_lookup_insert_eq. by apply lookup_lt_Some in Hb. }
  pose proof (Reduce_collect t rw' 0 Hwf' H0 ltac:(lia)) as Hred.
  replace (offset rw' + 0 + 1) with (offset rw' + 1) in Hred by lia.
  rewrite <- Hs'.
  set (bs' := window.buckets (win rw')) in *.
  pose proof (rotate_after_cursor bs' (offset rw') _ ltac:(lia) Hcur) as Hrot.
  rewrite Hlen in Hrot.
  set (rot := rotate (Z.to_nat ((offset rw' + 1) mod size rw')) bs') in *.
  assert (Hrl : length rot = Z.to_nat (size rw')).
  { unfold rot. rewrite length_rotate. lia. }
  exists sp, b0, rw', (take (Z.to_nat (validCount 0 rw')) rot).
  split; [done |]. split; [done |]. split; [done |].
  cbv zeta. rewrite <- Hbpin. split; [exact Hcur |].
  split; [exact Hred |]. unfold validCount. rewrite Hc'. simpl. split.
  - intros ->. rewrite take_ge by lia. split; [done |].
    rewrite last_lookup, Hrl.
    replace (Init.Nat.pred (Z.to_nat (size rw')))
      with (Init.Nat.pred (length bs')) by lia. done.
  - intros ->. split; [rewrite length_take; lia |].
    replace (Init.Nat.pred (length bs')) with (Z.to_nat (size rw' - 1))
      in Hrot by lia.
    transitivity (take (S (Z.to_nat (size rw' - 1))) rot);
      [symmetry; exact (take_S_r _ _ _ Hrot) |].
    apply take_ge. rewrite length_rotate. fold bs'. lia.
Qed.

Lemma Add_then_Reduce_witness :
  exists rw' seen,
    Add (25 * Millisecond) (25 * Millisecond) 4%float after_B = Ok rw' /\
    window.buckets (win rw') !! Z.to_nat (offset rw') =
      Some (mkBucket 4 1) /\
    Reduce (25 * Millisecond) collect rw' [] = Ok (rw', seen) /\
    length seen = 3%nat /\ last seen = Some (mkBucket 4 1).
Proof.
  destruct (Add_then_Reduce (25 * Millisecond) 4%float after_B)
    as (sp & b0 & rw' & seen & Hspan & Hb0 & Hadd & Hcur & Hred & Hvis & _).
  - constructor; by vm_compute.
  - discriminate.
  - by vm_compute.
  - by vm_compute.
  - assert (Hsp : sp = 1).
    { assert (H1 : span (25 * Millisecond) after_B = Ok 1) by (by vm_compute).
      rewrite H1 in Hspan. by injection Hspan. }
    subst sp. exists rw', seen. split; [exact Hadd |].
    split; [exact Hcur |]. split; [exact Hred |]. exact (Hvis eq_refl).
Defined.

(** ** The cursor and the clock *)

Lemma Add_offset t_span t_now v rw sp rw' :
  wf rw -> interval rw <> 0 -> span t_span rw = Ok sp ->
  Add t_span t_now v rw = Ok rw' ->
  offset rw' = if sp <=? 0 then offset rw else (offset rw + sp) mod size rw.
Proof.
  intros Hwf Hi Hspan Hadd.
  destruct (span_Ok t_span rw Hwf Hi) as (sp' & Hspan' & Hsp).
  rewrite Hspan in Hspan'. injection Hspan' as <-.
  destruct (Add_eq t_span t_now v rw sp Hwf Hi Hspan Hsp) as (b & _ & Hadd').
  rewrite Hadd in Hadd'. injection Hadd' as ->.
  by destruct (sp <=? 0).
Qed.

(** X13: with a positive interval and a clock that does not go back,
    [Add] moves [lastTime] by whole intervals and the cursor by whole slots.
    Let [k_span] and [k_now] be the numbers of whole intervals from
    [lastTime] to the reading taken in [span] and to the one taken by
    [updateOffset].  If [k_span = 0] neither moves.  Otherwise [lastTime]
    grows by [k_now] intervals and the cursor moves forward by
    [min k_span size] slots modulo [size]: the two agree when both readings
    fall in the same interval and fewer than [size] intervals have
    passed. *)
Theorem Add_cursor_follows_time t_span t_now v rw :
  wf rw -> 0 < interval rw ->
  0 <= lastTime rw -> lastTime rw <= t_span -> t_span <= t_now ->
  t_now < 2 ^ 63 ->
  let k_span := (t_span - lastTime rw) / interval rw in
  let k_now := (t_now - lastTime rw) / interval rw in
  exists rw',
    Add t_span t_now v rw = Ok rw' /\
    (k_span = 0 -> offset rw' = offset rw /\ lastTime rw' = lastTime rw) /\
    (0 < k_span ->
     lastTime rw' = lastTime rw + k_now * interval rw /\
     offset rw' = (offset rw + Z.min k_span (size rw)) mod size rw).
Proof.
  intros Hwf Hi H0 H1 H2 H3 k_span k_now. pose proof Hwf as [Hs _ _ _].
  assert (Hi' : interval rw <> 0) by lia.
  assert (Hk : 0 <= k_span) by (apply Z.div_pos; lia).
  assert (Hspan : span t_span rw = Ok (Z.min k_span (size rw))).
  { rewrite span_quot by (done || unfold int64_range; lia).
    unfold span_quot_spec. rewrite sub64_id by (unfold int64_range; lia).
    rewrite Z.quot_div_nonneg by lia. fold k_span.
    destruct (Z.leb_spec 0 k_span); [| lia].
    destruct (Z.ltb_spec k_span (size rw)); simpl; f_equal; lia. }
  destruct (Add_lastTime t_span t_now v rw _ Hwf Hi' Hspan)
    as (rw' & Hadd & _ & _ & Hl).
  pose proof (Add_offset t_span t_now v rw _ rw' Hwf Hi' Hspan Hadd) as Ho.
  exists rw'. split; [done |]. split.
  - intros Hz. rewrite Hz in Hl, Ho.
    replace (Z.min 0 (size rw)) with 0 in Hl, Ho by lia. done.
  - intros Hpos.
    destruct (Z.leb_spec (Z.min k_span (size rw)) 0); [lia |].
    split; [| done]. rewrite Hl.
    destruct (realign_arith t_now (lastTime rw) (interval rw)
                ltac:(lia) ltac:(lia) Hi') as (-> & _ & _ & _ & Hmono).
    destruct (Hmono ltac:(lia) Hi) as [-> _].
    pose proof (Z.div_mod (t_now - lastTime rw) (interval rw) Hi').
    fold k_now in H4. lia.
Qed.

Lemma Add_cursor_follows_time_witness :
  exists rw',
    Add (19 * Millisecond) (21 * Millisecond) 4%float (after_A false) =
      Ok rw' /\
    lastTime rw' = 20 * Millisecond /\ offset rw' = 1.
Proof.
  destruct (Add_cursor_follows_time (19 * Millisecond) (21 * Millisecond)
              4%float (after_A false)) as (rw' & Hadd & _ & Hmove).
  - constructor; by vm_compute.
  - by vm_compute.
  - by vm_compute.
  - by vm_compute.
  - by vm_compute.
  - by vm_compute.
  - exists rw'. split; [exact Hadd |]. apply Hmove. by vm_compute.
Defined.
